(** * The resolution cache of the [services] package

    A shallow embedding of [cache.go] and of the part of [error.go] the cache
    relies on, followed by the properties of the cache that the
    specification states.

    Conventions of the embedding.
    - [int64] and [uint64] values are integers of [Z] with the wrap-around of
      Go's arithmetic written out ([wrap64], [wrapu64]).
    - [time.Duration] is an [int64] number of nanoseconds; a [time.Time] is an
      instant counted in nanoseconds, [Add] is addition and [After] is [>]
      (the range of [time.Time] is far larger than that of a duration).
    - a [*list.Element] holding a [*cacheItem] is the position of the item in
      the heap of allocated items; [cache.items] is a finite map from keys to
      such positions and [cache.queue] the list of positions, front first.
    - goroutines are threads of an interleaving semantics: the code between
      [mutex.Lock] and [mutex.Unlock], each [atomic] operation and the body
      of the fetch goroutine (whose writes are published by [close(ready)])
      are the atomic steps. *)

From Stdlib Require Import ZArith Lia String Ascii List Permutation.
From stdpp Require Import base decidable option list gmap strings sorting.
Import ListNotations.

Local Open Scope Z_scope.

(** ** Machine integers *)

Definition wrap64 (z : Z) : Z := (z + 2 ^ 63) mod 2 ^ 64 - 2 ^ 63.
Definition add64 (a b : Z) : Z := wrap64 (a + b).
Definition wrapu64 (z : Z) : Z := z mod 2 ^ 64.
Definition MaxInt64 : Z := 2 ^ 63 - 1.
Definition MinInt64 : Z := - 2 ^ 63.
Definition int64_range (z : Z) : Prop := MinInt64 <= z <= MaxInt64.

(** ** error.go: the error classifier *)

(** The dynamic types of [error] values that [isUnreachable] tells apart.
    [Custom] stands for any other concrete type: [unreachable] is the result
    of its [Unreachable] method when it has one, [cause] the result of its
    [Cause] method when it has one. A nil [error] is [None]. *)
#[warnings="-register-all"] Inductive error : Type :=
| DNSError (Err : string)
| OpError (Err : option error)
| SyscallError (Err : option error)
| Errno (e : Z)
| cacheError (name : string)
| wrappedError (cause : option error)
| Canceled
| DeadlineExceeded
| Custom (msg : string) (unreachable : option bool) (cause : option (option error)).

Definition ECONNABORTED : Z := 103.
Definition ECONNREFUSED : Z := 111.
Definition ECONNRESET : Z := 104.

Definition isUnreachableDNSError (Err : string) : bool :=
  bool_decide (Err = "no such host"%string).

Definition isUnreachableErrno (e : Z) : bool :=
  (e =? ECONNABORTED) || (e =? ECONNREFUSED) || (e =? ECONNRESET).

Fixpoint isUnreachable_err (err : error) : bool :=
  match err with
  | DNSError e => isUnreachableDNSError e
  | OpError (Some e) => isUnreachable_err e
  | OpError None => false
  | SyscallError (Some e) => isUnreachable_err e
  | SyscallError None => false
  | Errno e => isUnreachableErrno e
  | cacheError _ => true
  | wrappedError (Some e) => isUnreachable_err e
  | wrappedError None => false
  | Canceled => false
  | DeadlineExceeded => false
  | Custom _ (Some b) _ => b
  | Custom _ None (Some (Some e)) => isUnreachable_err e
  | Custom _ None (Some None) => false
  | Custom _ None None => false
  end.

Definition isUnreachable (err : option error) : bool :=
  match err with
  | Some e => isUnreachable_err e
  | None => false
  end.

(** ** cache.go: helpers on strings *)

Definition copyStrings (s : list string) : list string := s.

(** [sort.Strings] orders by the bytes of the strings; the result of sorting
    is determined by its specification (see [sort_Strings_unique]), merge
    sort stands for it. *)
Definition sort_Strings (s : list string) : list string :=
  merge_sort String.le s.

Definition sortedStrings (s : list string) : list string :=
  let s := copyStrings s in
  if (1 <? Z.of_nat (length s)) then sort_Strings s else s.

Definition strings_Join (elems : list string) (sep : string) : string :=
  String.concat sep elems.

Record cacheKey : Type := mkKey { key_name : string; key_tags : string }.

Definition makeCacheKey (name : string) (tags : list string) : cacheKey :=
  {| key_name := name; key_tags := strings_Join tags "," |}.

#[global] Instance cacheKey_eq_dec : EqDecision cacheKey.
Proof. solve_decision. Defined.

#[global] Instance cacheKey_countable : Countable cacheKey.
Proof.
  refine (inj_countable' (fun k => (key_name k, key_tags k))
                         (fun p => mkKey (fst p) (snd p)) _).
  intros []; reflexivity.
Defined.

(** [rand.Perm n] is supplied by the environment; [is_perm] says that a list
    is a permutation of [0 .. n-1]. *)
Definition is_perm (n : nat) (p : list nat) : bool :=
  bool_decide (p ≡ₚ seq 0 n).

Definition shuffledStrings (perm : list nat) (s : list string) : list string :=
  (fun j => nth j s ""%string) <$> perm.

(** Sizes of the 64-bit layout: a string header, a slice header and a
    [cacheItem]. *)
Definition sizeof_string_header : Z := 16.
Definition sizeof_slice_header : Z := 24.
Definition sizeof_cacheItem : Z := 144.

Definition sizeofString (s : string) : Z :=
  add64 sizeof_string_header (Z.of_nat (String.length s)).

Definition sizeofStrings (s : list string) : Z :=
  fold_left (fun size x => add64 size (sizeofString x)) s sizeof_slice_header.

(** ** cache.go: the data model *)

Record cacheItem : Type := mkItem {
  item_index : Z;
  item_key : cacheKey;
  item_tags : list string;
  item_addrs : list string;
  item_bytes : Z;
  item_ttl : Z;
  item_err : option error;
  item_ready : bool
}.

(** [newCacheItem] receives the tags and does not store them. *)
Definition newCacheItem (key : cacheKey) (tags : list string) : cacheItem :=
  {| item_index := 0; item_key := key; item_tags := []; item_addrs := [];
     item_bytes := 0; item_ttl := 0; item_err := None; item_ready := false |}.

Record Cache : Type := mkCache {
  MinTTL : Z;
  MaxTTL : Z;
  MaxBytes : Z;
  c_items : gmap cacheKey nat;
  c_queue : list nat;
  c_bytes : Z;
  c_size : Z;
  c_hits : Z;
  c_misses : Z;
  c_evictions : Z
}.

Record CacheStats : Type := mkStats {
  Bytes : Z; Size : Z; Hits : Z; Misses : Z; Evictions : Z
}.

Definition Stats (cache : Cache) : CacheStats :=
  {| Bytes := c_bytes cache; Size := c_size cache; Hits := c_hits cache;
     Misses := c_misses cache; Evictions := c_evictions cache |}.

Definition maxBytes (cache : Cache) : Z :=
  if 0 <? MaxBytes cache then MaxBytes cache else 1024 * 1024.

Definition minTTL (cache : Cache) : Z :=
  if 0 <? MinTTL cache then MinTTL cache else 0.

Definition maxTTL (cache : Cache) : Z :=
  if 0 <? MaxTTL cache then MaxTTL cache else MaxInt64.

(** The zero value of [Cache] with the given configuration. *)
Definition newCache (minttl maxttl maxbytes : Z) : Cache :=
  {| MinTTL := minttl; MaxTTL := maxttl; MaxBytes := maxbytes;
     c_items := ∅; c_queue := [];
     c_bytes := 0; c_size := 0; c_hits := 0; c_misses := 0; c_evictions := 0 |}.

Definition set_lru (c : Cache) (m : gmap cacheKey nat) (q : list nat) : Cache :=
  {| MinTTL := MinTTL c; MaxTTL := MaxTTL c; MaxBytes := MaxBytes c;
     c_items := m; c_queue := q;
     c_bytes := c_bytes c; c_size := c_size c; c_hits := c_hits c;
     c_misses := c_misses c; c_evictions := c_evictions c |}.

Definition add_bytes (c : Cache) (d : Z) : Cache :=
  {| MinTTL := MinTTL c; MaxTTL := MaxTTL c; MaxBytes := MaxBytes c;
     c_items := c_items c; c_queue := c_queue c;
     c_bytes := add64 (c_bytes c) d; c_size := c_size c; c_hits := c_hits c;
     c_misses := c_misses c; c_evictions := c_evictions c |}.

Definition add_size (c : Cache) (d : Z) : Cache :=
  {| MinTTL := MinTTL c; MaxTTL := MaxTTL c; MaxBytes := MaxBytes c;
     c_items := c_items c; c_queue := c_queue c;
     c_bytes := c_bytes c; c_size := add64 (c_size c) d; c_hits := c_hits c;
     c_misses := c_misses c; c_evictions := c_evictions c |}.

Definition add_hits (c : Cache) (d : Z) : Cache :=
  {| MinTTL := MinTTL c; MaxTTL := MaxTTL c; MaxBytes := MaxBytes c;
     c_items := c_items c; c_queue := c_queue c;
     c_bytes := c_bytes c; c_size := c_size c; c_hits := add64 (c_hits c) d;
     c_misses := c_misses c; c_evictions := c_evictions c |}.

Definition add_misses (c : Cache) (d : Z) : Cache :=
  {| MinTTL := MinTTL c; MaxTTL := MaxTTL c; MaxBytes := MaxBytes c;
     c_items := c_items c; c_queue := c_queue c;
     c_bytes := c_bytes c; c_size := c_size c; c_hits := c_hits c;
     c_misses := add64 (c_misses c) d; c_evictions := c_evictions c |}.

Definition add_evictions (c : Cache) (d : Z) : Cache :=
  {| MinTTL := MinTTL c; MaxTTL := MaxTTL c; MaxBytes := MaxBytes c;
     c_items := c_items c; c_queue := c_queue c;
     c_bytes := c_bytes c; c_size := c_size c; c_hits := c_hits c;
     c_misses := c_misses c; c_evictions := add64 (c_evictions c) d |}.

(** [container/list] on the queue of element positions. *)
Definition list_Remove (e : nat) (q : list nat) : list nat :=
  filter (fun x => x ≠ e) q.

Definition list_MoveToFront (e : nat) (q : list nat) : list nat :=
  if decide (e ∈ q) then e :: list_Remove e q else q.

Definition list_PushFront (e : nat) (q : list nat) : list nat := e :: q.

Definition list_Back (q : list nat) : option nat := last q.

(** ** cache.go: the fetch goroutine [cacheItem.lookup] *)

(** What [Registry.Lookup] returned. *)
Record lookup_result : Type := mkRes {
  res_addrs : list string;
  res_ttl : Z;
  res_err : option error
}.

Definition clampTTL (ttl minTTL maxTTL : Z) : Z :=
  let ttl := if ttl <? minTTL then minTTL else ttl in
  let ttl := if maxTTL <? ttl then maxTTL else ttl in
  ttl.

Definition footprint (item : cacheItem) (addrs : list string) : Z :=
  add64 (add64 (add64 (add64 sizeof_cacheItem (sizeofStrings addrs))
                             (sizeofString (key_name (item_key item))))
                      (sizeofString (key_tags (item_key item))))
        (sizeofStrings (item_tags item)).

(** The body of [cacheItem.lookup] after the registry answered [res]; [perm]
    is the value of [rand.Perm] and [now] the value of [time.Now]. *)
Definition cacheItem_lookup (item : cacheItem) (res : lookup_result)
    (minTTL maxTTL : Z) (perm : list nat) (now : Z) : cacheItem :=
  let ttl := clampTTL (res_ttl res) minTTL maxTTL in
  {| item_index := item_index item;
     item_key := item_key item;
     item_tags := item_tags item;
     item_addrs := shuffledStrings perm (res_addrs res);
     item_bytes := footprint item (res_addrs res);
     item_ttl := now + ttl;
     item_err := res_err res;
     item_ready := true |}.

(** ** cache.go: [Cache.lookup], [Cache.Resolve] and [Cache.Lookup] as threads *)

(** A call of one of the two exported methods. *)
Inductive method : Type :=
| Resolve (name : string)
| Lookup (name : string) (tags : list string).

(** What the method returned. *)
Inductive result : Type :=
| ResolveRet (addr : string) (err : option error)
| LookupRet (addrs : list string) (ttl : Z) (err : option error).

(** [Resolve] calls [cache.lookup(ctx, name)], without tags. *)
Definition method_name (m : method) : string :=
  match m with Resolve name => name | Lookup name _ => name end.

Definition method_tags (m : method) : list string :=
  match m with Resolve _ => sortedStrings [] | Lookup _ tags => sortedStrings tags end.

Definition method_key (m : method) : cacheKey :=
  makeCacheKey (method_name m) (method_tags m).

(** The program points of a call, named after the line of [cache.go] at which
    the next atomic step starts; the local variables of [Cache.lookup] that
    are live there are carried along. *)
Inductive pc : Type :=
| L113                              (* Lock; find or insert the element; Unlock *)
| L127 (elem : nat) (hit : bool)    (* if !hit { go item.lookup(...) } *)
| L132 (elem : nat) (hit : bool)    (* select; time.Now().After(item.ttl) *)
| L140 (elem : nat) (hit : bool)    (* Lock; evict the expired element; Unlock *)
| L150 (elem : nat) (hit : bool)    (* AddInt64(&cache.bytes, -item.bytes) *)
| L151 (elem : nat) (hit : bool)    (* AddInt64(&cache.size, -1) *)
| L152 (elem : nat) (hit : bool)    (* AddInt64(&cache.evictions, +1); if hit continue *)
| L164 (elem : nat)                 (* AddInt64(&cache.hits, +1) *)
| L166 (elem : nat)                 (* AddInt64(&cache.size, +1) *)
| L167 (elem : nat)                 (* AddInt64(&cache.misses, +1) *)
| L169 (elem : nat)                 (* bytes := AddInt64(&cache.bytes, +item.bytes) *)
| L172 (elem : nat) (bytes : Z)     (* for bytes > maxBytes { Lock; remove the back; Unlock *)
| L186 (elem : nat) (oldest : nat)  (* bytes = AddInt64(&cache.bytes, -oldestItem.bytes) *)
| L187 (elem : nat) (bytes : Z)     (* AddInt64(&cache.size, -1) *)
| L188 (elem : nat) (bytes : Z)     (* AddInt64(&cache.evictions, +1) } *)
| L192 (elem : nat)                 (* return; the rest of Resolve or Lookup *)
| Returned (r : result).

Definition error_result (m : method) (e : error) : result :=
  match m with
  | Resolve _ => ResolveRet "" (Some e)
  | Lookup _ _ => LookupRet [] 0 (Some e)
  end.

(** The branch of line 163. *)
Definition stats_pc (elem : nat) (hit : bool) : pc :=
  if hit then L164 elem else L166 elem.

Definition set_index (item : cacheItem) (i : Z) : cacheItem :=
  {| item_index := i; item_key := item_key item; item_tags := item_tags item;
     item_addrs := item_addrs item; item_bytes := item_bytes item;
     item_ttl := item_ttl item; item_err := item_err item;
     item_ready := item_ready item |}.

(** Lines 81-88 of [Resolve]: the atomic increment of the index of the item
    and the choice of an address. *)
Definition Resolve_select (name : string) (item : cacheItem) : cacheItem * result :=
  let i := wrapu64 (item_index item + 1) in
  let n := Z.of_nat (length (item_addrs item)) in
  (set_index item i,
   if n =? 0 then ResolveRet "" (Some (cacheError name))
   else ResolveRet (nth (Z.to_nat (i mod n)) (item_addrs item) ""%string) None).

(** [deadline.Sub(now)], which saturates at the bounds of a duration. *)
Definition Time_Sub (t u : Z) : Z := Z.max MinInt64 (Z.min MaxInt64 (t - u)).

(** Lines 98-105 of [Lookup]. *)
Definition Lookup_ttl (item : cacheItem) (now : Z) : result :=
  let deadline := item_ttl item in
  let ttl := if deadline <? now then 0 else Time_Sub deadline now in
  LookupRet (copyStrings (item_addrs item)) ttl None.

(** One atomic step of a call at program point [p]. [now] is what
    [time.Now] returns if the step reads the clock; [done] is [ctx.Err()] if
    the step is the [select] and takes its [ctx.Done()] branch. The result is
    [None] when the step cannot be taken: the call has returned, it waits for
    an item that is not ready, or it dereferences a nil pointer. *)
Definition thread_step (m : method) (p : pc) (now : Z) (done : option error)
    (c : Cache) (h : list cacheItem) (sp : list nat)
  : option (Cache * list cacheItem * list nat * pc) :=
  let key := method_key m in
  match p with
  | L113 =>
      match c_items c !! key with
      | Some elem =>
          Some (set_lru c (c_items c) (list_MoveToFront elem (c_queue c)),
                h, sp, L127 elem true)
      | None =>
          let elem := length h in
          Some (set_lru c (<[key := elem]> (c_items c))
                          (list_PushFront elem (c_queue c)),
                h ++ [newCacheItem key (method_tags m)], sp, L127 elem false)
      end
  | L127 elem hit =>
      Some (c, h, if hit then sp else elem :: sp, L132 elem hit)
  | L132 elem hit =>
      match done with
      | Some e => Some (c, h, sp, Returned (error_result m e))
      | None =>
          item ← h !! elem;
          if item_ready item then
            if item_ttl item <? now
            then Some (c, h, sp, L140 elem hit)
            else Some (c, h, sp, stats_pc elem hit)
          else None
      end
  | L140 elem hit =>
      if decide (c_items c !! key = Some elem)
      then Some (set_lru c (delete key (c_items c)) (list_Remove elem (c_queue c)),
                 h, sp, L150 elem hit)
      else Some (c, h, sp, stats_pc elem hit)
  | L150 elem hit =>
      item ← h !! elem;
      Some (add_bytes c (- item_bytes item), h, sp, L151 elem hit)
  | L151 elem hit =>
      Some (add_size c (-1), h, sp, L152 elem hit)
  | L152 elem hit =>
      Some (add_evictions c 1, h, sp, if hit then L113 else stats_pc elem hit)
  | L164 elem =>
      Some (add_hits c 1, h, sp, L192 elem)
  | L166 elem =>
      Some (add_size c 1, h, sp, L167 elem)
  | L167 elem =>
      Some (add_misses c 1, h, sp, L169 elem)
  | L169 elem =>
      item ← h !! elem;
      let c' := add_bytes c (item_bytes item) in
      Some (c', h, sp, L172 elem (c_bytes c'))
  | L172 elem bytes =>
      if maxBytes c <? bytes then
        if decide (c_items c = ∅) then Some (c, h, sp, L192 elem)
        else
          oldestElem ← list_Back (c_queue c);
          oldestItem ← h !! oldestElem;
          Some (set_lru c (delete (item_key oldestItem) (c_items c))
                          (list_Remove oldestElem (c_queue c)),
                h, sp, L186 elem oldestElem)
      else Some (c, h, sp, L192 elem)
  | L186 elem oldest =>
      oldestItem ← h !! oldest;
      let c' := add_bytes c (- item_bytes oldestItem) in
      Some (c', h, sp, L187 elem (c_bytes c'))
  | L187 elem bytes =>
      Some (add_size c (-1), h, sp, L188 elem bytes)
  | L188 elem bytes =>
      Some (add_evictions c 1, h, sp, L172 elem bytes)
  | L192 elem =>
      item ← h !! elem;
      match item_err item with
      | Some e => Some (c, h, sp, Returned (error_result m e))
      | None =>
          match m with
          | Resolve name =>
              let '(item', r) := Resolve_select name item in
              Some (c, <[elem := item']> h, sp, Returned r)
          | Lookup _ _ =>
              Some (c, h, sp, Returned (Lookup_ttl item now))
          end
      end
  | Returned _ => None
  end.

(** ** The interleaving semantics *)

Record thread : Type := mkThread { t_method : method; t_pc : pc }.

(** A call of the registry by the fetch goroutine of an element. *)
Record backend_call : Type := mkCall {
  call_elem : nat;
  call_name : string;
  call_tags : list string;
  call_res : lookup_result
}.

Record state : Type := mkState {
  cache : Cache;
  heap : list cacheItem;        (* the cacheItems allocated so far *)
  threads : list thread;        (* the calls of Resolve and Lookup *)
  spawned : list nat;           (* fetch goroutines started and not yet run *)
  calls : list backend_call     (* the calls of Registry.Lookup made so far *)
}.

Definition init (c : Cache) : state :=
  {| cache := c; heap := []; threads := []; spawned := []; calls := [] |}.

Inductive event : Type :=
| Call (m : method)
| Run (tid : nat) (now : Z) (done : option error)
| Fetch (elem : nat) (res : lookup_result) (perm : list nat) (now : Z).

Definition step (ev : event) (s : state) : option state :=
  match ev with
  | Call m =>
      Some {| cache := cache s; heap := heap s;
              threads := threads s ++ [mkThread m L113];
              spawned := spawned s; calls := calls s |}
  | Run tid now done =>
      t ← threads s !! tid;
      '(c, h, sp, p) ← thread_step (t_method t) (t_pc t) now done
                         (cache s) (heap s) (spawned s);
      Some {| cache := c; heap := h;
              threads := <[tid := mkThread (t_method t) p]> (threads s);
              spawned := sp; calls := calls s |}
  | Fetch elem res perm now =>
      if decide (elem ∈ spawned s) then
        item ← heap s !! elem;
        if is_perm (length (res_addrs res)) perm then
          Some {| cache := cache s;
                  heap := <[elem := cacheItem_lookup item res (minTTL (cache s))
                                      (maxTTL (cache s)) perm now]> (heap s);
                  threads := threads s;
                  spawned := list_Remove elem (spawned s);
                  calls := calls s ++ [mkCall elem (key_name (item_key item))
                                              (item_tags item) res] |}
        else None
      else None
  end.

Fixpoint run (evs : list event) (s : state) : option state :=
  match evs with
  | [] => Some s
  | ev :: evs => s' ← step ev s; run evs s'
  end.

Definition reachable (c : Cache) (s : state) : Prop :=
  ∃ evs, run evs (init c) = Some s.

(** ** Notions used in the statements and in their proofs *)

(** What a test observes of the state reached by a schedule: the number of
    items allocated, the calls of the registry, the statistics and the
    program points of the calls. *)
Definition observe (o : option state)
  : option (nat * list backend_call * CacheStats * list pc) :=
  s ← o; Some (length (heap s), calls s, Stats (cache s), map t_pc (threads s)).

(** A call that misses, with the fetch of its element, run to its return. *)
Definition miss_schedule (m : method) (tid elem : nat) (res : lookup_result)
    (perm : list nat) (now : Z) : list event :=
  [Call m; Run tid now None; Run tid now None; Fetch elem res perm now]
  ++ repeat (Run tid now None) 6.

(** A call that hits an element that has not expired, run to its return. *)
Definition hit_schedule (m : method) (tid : nat) (now : Z) : list event :=
  Call m :: repeat (Run tid now None) 5.

(** What a call that is between two updates of the counters still owes to
    [evictions + size - misses]. *)
Definition owed (p : pc) : Z :=
  match p with
  | L152 _ _ => 1
  | L188 _ _ => 1
  | L167 _ => -1
  | _ => 0
  end.

Definition owed_all (ts : list thread) : Z :=
  foldr (fun t acc => owed (t_pc t) + acc) 0 ts.

(** The counters are the wrapped values of unbounded counts that balance. *)
Definition stats_inv (s : state) : Prop :=
  ∃ E S M : Z,
    c_evictions (cache s) = wrap64 E
    ∧ c_size (cache s) = wrap64 S
    ∧ c_misses (cache s) = wrap64 M
    ∧ E + S + owed_all (threads s) = M.

(** Every call has returned. *)
Definition quiescent (s : state) : Prop :=
  Forall (fun t => ∃ r, t_pc t = Returned r) (threads s).

(** The state at the end of a schedule run from the empty cache. *)
Definition final (c : Cache) (evs : list event) : state :=
  default (init c) (run evs (init c)).

(** A cold call of [Resolve] under a budget of 64 bytes, which evicts the
    item that it fetched, followed by a second call, which misses again. *)
Definition small_cache_schedule : list event :=
  let res := mkRes ["a"; "b"; "c"]%string 1000 None in
  miss_schedule (Resolve "svc") 0 0 res [2; 0; 1]%nat 5
  ++ repeat (Run 0 5 None) 4
  ++ miss_schedule (Resolve "svc") 1 1 res [1; 0; 2]%nat 9
  ++ repeat (Run 1 9 None) 4.




Definition key_of (h : list cacheItem) (e : nat) : option cacheKey :=
  item_key <$> h !! e.

(** The queue and the map hold the same elements, each one once and under
    the key of its item. *)
Record lru_wf (m : gmap cacheKey nat) (q : list nat) (h : list cacheItem) : Prop := {
  lru_nodup : NoDup q;
  lru_queue : ∀ e, e ∈ q → ∃ k, key_of h e = Some k ∧ m !! k = Some e;
  lru_map : ∀ k e, m !! k = Some e → e ∈ q ∧ key_of h e = Some k
}.

(** The elements that a call at a program point refers to. *)
Definition pc_elems (p : pc) : list nat :=
  match p with
  | L113 | Returned _ => []
  | L127 e _ | L132 e _ | L140 e _ | L150 e _ | L151 e _ | L152 e _
  | L164 e | L166 e | L167 e | L169 e | L172 e _ | L187 e _ | L188 e _
  | L192 e => [e]
  | L186 e o => [e; o]
  end.

Record wf (s : state) : Prop := {
  wf_lru : lru_wf (c_items (cache s)) (c_queue (cache s)) (heap s);
  wf_threads : ∀ t e, t ∈ threads s → e ∈ pc_elems (t_pc t) →
                      (e < length (heap s))%nat;
  wf_spawned : ∀ e, e ∈ spawned s → (e < length (heap s))%nat
}.

(** [n] consecutive steps of one call, outside the [select]'s cancellation
    branch, with the clock at [now]. *)
Fixpoint thread_run (n : nat) (m : method) (now : Z)
    (st : Cache * list cacheItem * list nat * pc)
  : option (Cache * list cacheItem * list nat * pc) :=
  match n with
  | O => Some st
  | S n =>
      let '(c, h, sp, p) := st in
      st' ← thread_step m p now None c h sp; thread_run n m now st'
  end.

(** The effect on the cache of one turn of the loop of lines 172-189, which
    removes the element [o] holding the item [oi]. *)
Definition evict_one (c : Cache) (o : nat) (oi : cacheItem) : Cache :=
  add_evictions
    (add_size
       (add_bytes
          (set_lru c (delete (item_key oi) (c_items c)) (list_Remove o (c_queue c)))
          (- item_bytes oi))
       (-1))
    1.

(** [k] turns of the loop. *)
Fixpoint evict_lru (k : nat) (c : Cache) (h : list cacheItem) : Cache :=
  match k with
  | O => c
  | S k =>
      match list_Back (c_queue c) with
      | Some o =>
          match h !! o with
          | Some oi => evict_lru k (evict_one c o oi) h
          | None => c
          end
      | None => c
      end
  end.

Definition bytes_of (h : list cacheItem) (e : nat) : Z :=
  from_option item_bytes 0 (h !! e).

(** The element whose fetch goroutine a call is about to start. *)
Definition start_elem (p : pc) : option nat :=
  match p with
  | L127 e false => Some e
  | _ => None
  end.

Definition starting (ts : list thread) : list nat :=
  omap (fun t => start_elem (t_pc t)) ts.

Definition occ (e : nat) (l : list nat) : nat := count_occ Nat.eq_dec l e.

(** The fetches of an element: the calls of the registry made for it, its
    goroutine if it is started and has not run, the call that is about to
    start its goroutine. *)
Definition fetches (s : state) (e : nat) : nat :=
  (occ e (call_elem <$> calls s) + occ e (spawned s) + occ e (starting (threads s)))%nat.

(** Every element allocated has exactly one fetch. *)
Definition fetch_inv (s : state) : Prop :=
  ∀ e, fetches s e = if decide (e < length (heap s))%nat then 1%nat else 0%nat.

(** The element whose item a call has found ready at its [select]. *)
Definition past_select (p : pc) : option nat :=
  match p with
  | L140 e _ | L150 e _ | L151 e _ | L152 e _ | L164 e | L166 e | L167 e
  | L169 e | L172 e _ | L186 e _ | L187 e _ | L188 e _ | L192 e => Some e
  | L113 | L127 _ _ | L132 _ _ | Returned _ => None
  end.

(** Two versions of an item that differ at most by the index. *)
Definition same_content (a b : cacheItem) : Prop :=
  item_key a = item_key b ∧ item_tags a = item_tags b
  ∧ item_addrs a = item_addrs b ∧ item_bytes a = item_bytes b
  ∧ item_ttl a = item_ttl b ∧ item_err a = item_err b
  ∧ item_ready a = item_ready b.

(** The item of element [e] holds what the call [cl] of the registry
    returned. *)
Definition holds_result (e : nat) (item : cacheItem) (cl : backend_call) : Prop :=
  call_elem cl = e
  ∧ call_name cl = key_name (item_key item)
  ∧ call_tags cl = item_tags item
  ∧ item_err item = res_err (call_res cl)
  ∧ item_addrs item ≡ₚ res_addrs (call_res cl).

Definition observed_inv (s : state) : Prop :=
  (∀ e item, heap s !! e = Some item → item_ready item = true →
     ∃ cl, cl ∈ calls s ∧ holds_result e item cl)
  ∧ (∀ t e, t ∈ threads s → past_select (t_pc t) = Some e →
       ∃ item, heap s !! e = Some item ∧ item_ready item = true).

(** What a call returns with the item of its element (line 192 and the rest
    of [Resolve] or [Lookup]). *)
Definition final_result (m : method) (item : cacheItem) (now : Z) : result :=
  match item_err item with
  | Some e => error_result m e
  | None =>
      match m with
      | Resolve name => snd (Resolve_select name item)
      | Lookup _ _ => Lookup_ttl item now
      end
  end.

(** Calls of [Resolve], one after the other, each one run to its return on
    an element that has not expired; [nows] holds the clock of each call. *)
Fixpoint resolve_schedule (name : string) (tid : nat) (nows : list Z) : list event :=
  match nows with
  | [] => []
  | now :: nows =>
      hit_schedule (Resolve name) tid now ++ resolve_schedule name (S tid) nows
  end.

(** The address that the [j]-th call picks when the index is [i] before the
    first call. *)
Definition pick (addrs : list string) (i : Z) (j : nat) : string :=
  nth (Z.to_nat ((i + 1 + Z.of_nat j) mod Z.of_nat (length addrs))) addrs ""%string.

(** The thread of a call of [Resolve] that returned an address. *)
Definition resolved (name : string) (addr : string) : thread :=
  mkThread (Resolve name) (Returned (ResolveRet addr None)).

Definition abc : lookup_result := mkRes ["a"; "b"; "c"]%string 1000 None.

(** A cold call of [Resolve] run to its return under the default budget. *)
Definition warm : state :=
  final (newCache 0 0 0) (miss_schedule (Resolve "svc") 0 0 abc [2; 0; 1]%nat 5).

Definition warm_item : cacheItem :=
  {| item_index := 1; item_key := mkKey "svc" ""; item_tags := [];
     item_addrs := ["c"; "a"; "b"]%string; item_bytes := 278; item_ttl := 1005;
     item_err := None; item_ready := true |}.

Definition no_results : lookup_result := mkRes [] 1000 None.

(** ** Notions used in the further properties *)

(** Every call of the registry that was made left its item ready. *)
Definition called_inv (s : state) : Prop :=
  ∀ cl, cl ∈ calls s →
    ∃ item, heap s !! call_elem cl = Some item ∧ item_ready item = true.

(** The element that a call has found or inserted at line 113. *)
Definition pc_elem (p : pc) : option nat :=
  match p with
  | L113 | Returned _ => None
  | L127 e _ | L132 e _ | L140 e _ | L150 e _ | L151 e _ | L152 e _
  | L164 e | L166 e | L167 e | L169 e | L172 e _ | L186 e _ | L187 e _
  | L188 e _ | L192 e => Some e
  end.

(** The item of the element of every call has the key of the call. *)
Definition thread_key_inv (s : state) : Prop :=
  ∀ t e, t ∈ threads s → pc_elem (t_pc t) = Some e →
    key_of (heap s) e = Some (method_key (t_method t)).

(** An event other than the cancellation of a call at its [select]. *)
Definition no_cancel (ev : event) : Prop :=
  match ev with
  | Run _ _ (Some _) => False
  | _ => True
  end.

(** A call that has been counted as a hit or as a miss. *)
Definition counted (p : pc) : Z :=
  match p with
  | L169 _ | L172 _ _ | L186 _ _ | L187 _ _ | L188 _ _ | L192 _ | Returned _ => 1
  | _ => 0
  end.

(** A call that has inserted an element and is not yet counted as a miss. *)
Definition uncounted_miss (p : pc) : Z :=
  match p with
  | L127 _ false | L132 _ false | L140 _ false | L150 _ false | L151 _ false
  | L152 _ false | L166 _ | L167 _ => 1
  | _ => 0
  end.

Definition sum_pcs (f : pc → Z) (ts : list thread) : Z :=
  foldr (fun t acc => f (t_pc t) + acc) 0 ts.

(** Without cancellation: the calls counted so far are the hits and the
    misses, and the elements allocated are the misses counted and those
    still to be counted. *)
Definition accounting_inv (s : state) : Prop :=
  ∃ H M : Z,
    c_hits (cache s) = wrap64 H ∧ c_misses (cache s) = wrap64 M
    ∧ H + M = sum_pcs counted (threads s)
    ∧ M + sum_pcs uncounted_miss (threads s) = Z.of_nat (length (heap s)).

(** The call that created an element and has not gone past its [select]. *)
Definition creating (p : pc) (e : nat) : Prop :=
  p = L127 e false ∨ p = L132 e false.

(** Without cancellation: an item is ready or the call that created its
    element is still at its [select] or before. *)
Definition created_inv (s : state) : Prop :=
  ∀ e item, heap s !! e = Some item →
    item_ready item = true ∨ ∃ t, t ∈ threads s ∧ creating (t_pc t) e.

(** What [size] is ahead of the number of entries of the map because of a
    call: an element inserted and not yet counted (-1), an element removed
    and not yet discounted (+1). *)
Definition size_ahead (p : pc) : Z :=
  match p with
  | L127 _ false | L132 _ false | L140 _ false | L152 _ false | L166 _ => -1
  | L150 _ true | L151 _ true | L186 _ _ | L187 _ _ => 1
  | _ => 0
  end.

(** Without cancellation: [size] is the number of entries of the map, up to
    the calls that are between the map and the counter. *)
Definition size_inv (s : state) : Prop :=
  ∃ S : Z,
    c_size (cache s) = wrap64 S
    ∧ S = Z.of_nat (size (c_items (cache s))) + sum_pcs size_ahead (threads s).

(** ** error.go: [isCanceled] and [wrapError] *)

(** [strings.HasSuffix]. *)
Definition strings_HasSuffix (s suffix : string) : bool :=
  (String.length suffix <=? String.length s)%nat
  && bool_decide (substring (String.length s - String.length suffix)
                            (String.length suffix) s = suffix).

Definition isCanceledDNSError (Err : string) : bool :=
  strings_HasSuffix Err ": operation was canceled".

(** The type switch of [isCanceled]: [*net.DNSError], [*net.OpError], a type
    with a [Cause] method ([*wrappedError] is one), and by default the
    comparison with [context.Canceled]. *)
Fixpoint isCanceled_err (err : error) : bool :=
  match err with
  | DNSError e => isCanceledDNSError e
  | OpError (Some e) => isCanceled_err e
  | OpError None => false
  | wrappedError (Some e) => isCanceled_err e
  | wrappedError None => false
  | Custom _ _ (Some (Some e)) => isCanceled_err e
  | Custom _ _ (Some None) => false
  | Custom _ _ None => false
  | Canceled => true
  | SyscallError _ => false
  | Errno _ => false
  | cacheError _ => false
  | DeadlineExceeded => false
  end.

Definition isCanceled (err : option error) : bool :=
  match err with
  | Some e => isCanceled_err e
  | None => false
  end.

Definition wrapError (err : option error) : option error :=
  match err with
  | None => None
  | Some e => Some (wrappedError (Some e))
  end.

(** ** registry.go: [Prefer] *)

(** The registry behind the decorator and the context of the call. The
    answer of the registry and the state of the context may change from one
    turn of the loop to the next: both are given the number of the turn. *)
Definition Registry : Type := nat → string → list string → lookup_result.
Definition Context : Type := nat → option error.

(** The loop of [prefer.Lookup] from its turn [i] on, and the call of line 81
    after it; with the result comes the list of the tag lists that the base
    registry was called with. *)
Fixpoint prefer_loop (base : Registry) (ctx : Context) (i : nat)
    (name : string) (tags : list string) (ptags : list string)
  : lookup_result * list (list string) :=
  match ptags with
  | [] => (base i name tags, [tags])
  | preferredTag :: ptags =>
      match ctx i with
      | Some err => (mkRes [] 0 (Some err), [])
      | None =>
          let tagsBuffer := tags ++ [preferredTag] in
          let r := base i name tagsBuffer in
          if negb (length (res_addrs r) =? 0)%nat then (r, [tagsBuffer])
          else
            let '(r', log) := prefer_loop base ctx (S i) name tags ptags in
            (r', tagsBuffer :: log)
      end
  end.

(** [Prefer(base, tags...).Lookup(ctx, name, tags...)]. *)
Definition prefer_Lookup (base : Registry) (ptags : list string) (ctx : Context)
    (name : string) (tags : list string) : lookup_result * list (list string) :=
  prefer_loop base ctx 0 name tags (copyStrings ptags).

(** ** dialer.go: [DialContext] *)

Section Dialer.

(** The connections and the functions of the standard library that
    [DialContext] calls: [net.SplitHostPort] ([None] when it returns an
    error), [net.ParseIP] ([true] when the result is not nil) and
    [net.Dialer.DialContext]. *)
Variable Conn : Type.
Variable net_SplitHostPort : string → option (string * string).
Variable net_ParseIP : string → bool.
Variable net_Dial : string → string → option Conn * option error.

(** [d.Resolver] ([None] when it is nil) and [DefaultResolver], each as the
    function of their [Resolve] method under the context of the call. *)
Variable d_Resolver : option (string → string * option error).
Variable DefaultResolver : string → string * option error.

Definition nameOnly (address : string) : string :=
  match net_SplitHostPort address with
  | None => address
  | Some (name, _) => name
  end.

(** What [DialContext] returned, and the address it dialed if it did. *)
Record dial_outcome : Type := mkOutcome {
  dialed : option string;
  dial_conn : option Conn;
  dial_err : option error
}.

(** Lines 97-107. *)
Definition dial_address (network address : string) : dial_outcome :=
  let '(conn, err) := net_Dial network address in
  {| dialed := Some address; dial_conn := conn; dial_err := wrapError err |}.

Definition DialContext (network address : string) : dial_outcome :=
  let resolve :=
    match net_SplitHostPort address with
    | None => true
    | Some (host, _) => negb (net_ParseIP host)
    end in
  if resolve then
    let resolver := default DefaultResolver d_Resolver in
    match resolver (nameOnly address) with
    | (target, None) => dial_address network target
    | (_, Some err) =>
        if isUnreachable (Some err) then dial_address network address
        else {| dialed := None; dial_conn := None; dial_err := Some err |}
    end
  else dial_address network address.

End Dialer.

(** The registry of the tests of [Prefer]: it knows "my-service" under the
    tag "B". *)
Definition tagB_registry : Registry :=
  fun _ name tags =>
    if bool_decide (name = "my-service"%string ∧ "B"%string ∈ tags)
    then mkRes ["localhost:4242"]%string 1000000000 None
    else mkRes [] 0 None.

(** A registry that fails with no address as soon as a tag is added to
    "my-tag". *)
Definition failing_registry : Registry :=
  fun _ _ tags =>
    match tags with
    | [_] => mkRes ["localhost:80"]%string 5 None
    | _ => mkRes [] 0 (Some (DNSError "no such host"))
    end.

(** A context that is never done. *)
Definition background : Context := fun _ => None.

(** A call that misses and gives up at its [select], when its context is
    done with [err]; the fetch of its element runs afterwards. *)
Definition cancelled_schedule (m : method) (tid elem : nat) (err : error)
    (res : lookup_result) (perm : list nat) (now : Z) : list event :=
  [Call m; Run tid now None; Run tid now None; Run tid now (Some err);
   Fetch elem res perm now].

(** A tag that is not empty and holds no comma. *)
Fixpoint has_comma (s : string) : bool :=
  match s with
  | EmptyString => false
  | String c s => Ascii.eqb c ","%char || has_comma s
  end.

Definition plain_tag (t : string) : Prop :=
  t ≠ ""%string ∧ has_comma t = false.

(** What [strings.Join] appends after the first element. *)
Definition join_rest (l : list string) : string :=
  match l with
  | [] => ""%string
  | _ :: _ => String ","%char (strings_Join l ",")
  end.

(** * Properties *)

(** ** Machine arithmetic *)

Lemma wrap64_range z : int64_range (wrap64 z).
Proof.
  unfold int64_range, wrap64, MinInt64, MaxInt64.
  pose proof (Z.mod_pos_bound (z + 2 ^ 63) (2 ^ 64) ltac:(lia)). lia.
Qed.


Lemma wrap64_add_l a b : wrap64 (wrap64 a + b) = wrap64 (a + b).
Proof.
  unfold wrap64. f_equal.
  replace ((a + 2 ^ 63) mod 2 ^ 64 - 2 ^ 63 + b + 2 ^ 63)
    with ((a + 2 ^ 63) mod 2 ^ 64 + b) by lia.
  rewrite Zplus_mod_idemp_l. f_equal. lia.
Qed.

Lemma wrap64_add_r a b : wrap64 (a + wrap64 b) = wrap64 (a + b).
Proof. rewrite (Z.add_comm a), wrap64_add_l. f_equal. lia. Qed.

Lemma add64_wrap64 a d : add64 (wrap64 a) d = wrap64 (a + d).
Proof. apply wrap64_add_l. Qed.

Lemma add64_wrap64_both a b : add64 (wrap64 a) (wrap64 b) = wrap64 (a + b).
Proof. unfold add64. by rewrite wrap64_add_l, wrap64_add_r. Qed.

(** ** The cache key *)

Lemma sort_Strings_unique (f : list string → list string) :
  (∀ s, Sorted String.le (f s)) → (∀ s, f s ≡ₚ s) → ∀ s, f s = sort_Strings s.
Proof.
  intros Hsorted Hperm s. apply (Sorted_unique String.le); [done | |].
  - apply (Sorted_merge_sort String.le).
  - unfold sort_Strings. by rewrite Hperm, merge_sort_Permutation.
Qed.

Lemma sortedStrings_perm_eq (s1 s2 : list string) :
  s1 ≡ₚ s2 → sortedStrings s1 = sortedStrings s2.
Proof.
  intros Hp. unfold sortedStrings, copyStrings.
  rewrite <-(Permutation_length Hp).
  case_match eqn:Hlen.
  - apply (Sorted_unique String.le); unfold sort_Strings.
    + apply (Sorted_merge_sort String.le).
    + apply (Sorted_merge_sort String.le).
    + by rewrite !merge_sort_Permutation.
  - apply Z.ltb_ge in Hlen.
    destruct s1 as [|x [|y s1]]; simpl in Hlen; try lia.
    + by apply Permutation_nil in Hp.
    + by apply Permutation_singleton_l in Hp.
Qed.

(** C8: two tag lists that are permutations of each other give the same
    cache key, and a call of [Lookup] with one of them takes, from every
    program point and in every state of the cache, exactly the step that the
    call with the other takes: in particular it finds the element that the
    other inserted. *)
Theorem C8_tag_order_irrelevant (name : string) (tags1 tags2 : list string) :
  tags1 ≡ₚ tags2 →
  makeCacheKey name (sortedStrings tags1) = makeCacheKey name (sortedStrings tags2)
  ∧ (∀ c : Cache,
        c_items c !! method_key (Lookup name tags1)
        = c_items c !! method_key (Lookup name tags2))
  ∧ (∀ p now done c h sp,
        thread_step (Lookup name tags1) p now done c h sp
        = thread_step (Lookup name tags2) p now done c h sp).
Proof.
  intros Hp. pose proof (sortedStrings_perm_eq _ _ Hp) as Heq.
  assert (method_key (Lookup name tags1) = method_key (Lookup name tags2)) as Hk.
  { unfold method_key; simpl. by rewrite Heq. }
  split; [by rewrite Heq|]. split; [intros; by rewrite Hk|].
  intros p now done c h sp. unfold thread_step. rewrite Hk.
  simpl method_tags. rewrite Heq. reflexivity.
Qed.

Lemma C8_tag_order_irrelevant_witness :
  makeCacheKey "svc" (sortedStrings ["b"; "a"; "c"]%string)
  = makeCacheKey "svc" (sortedStrings ["c"; "a"; "b"]%string).
Proof.
  apply (C8_tag_order_irrelevant "svc" ["b"; "a"; "c"]%string ["c"; "a"; "b"]%string).
  apply (Permutation_rev ["b"; "a"; "c"]%string).
Defined.

(** C10: the tag lists ["a,b"] and ["a"; "b"] are not permutations of each
    other and have the same cache key under every name; a lookup with the
    second one after a lookup with the first one hits the item of the first
    one: one item is allocated and the registry is called once. *)
Theorem C10_comma_collision :
  let tags1 := ["a,b"]%string in
  let tags2 := ["a"; "b"]%string in
  ¬ tags1 ≡ₚ tags2
  ∧ (∀ name, makeCacheKey name (sortedStrings tags1)
             = makeCacheKey name (sortedStrings tags2))
  ∧ (∀ name p now done c h sp,
        thread_step (Lookup name tags1) p now done c h sp
        = thread_step (Lookup name tags2) p now done c h sp)
  ∧ let res := mkRes ["10.0.0.1:80"]%string 1000 None in
    observe (run (miss_schedule (Lookup "svc" tags1) 0 0 res [0%nat] 5
                  ++ hit_schedule (Lookup "svc" tags2) 1 7)
                 (init (newCache 0 0 0)))
    = Some (1%nat,
            [mkCall 0 "svc" [] res],
            {| Bytes := 257; Size := 1; Hits := 1; Misses := 1; Evictions := 0 |},
            [Returned (LookupRet ["10.0.0.1:80"]%string 1000 None);
             Returned (LookupRet ["10.0.0.1:80"]%string 998 None)]).
Proof.
  simpl. split; [|split; [|split]].
  - intros Hp. apply Permutation_length in Hp. discriminate.
  - reflexivity.
  - reflexivity.
  - vm_compute. reflexivity.
Qed.

(** ** The fetch goroutine *)





(** ** Runs of the interleaving semantics *)

Arguments thread_step : simpl never.

Lemma run_app evs1 evs2 s :
  run (evs1 ++ evs2) s = s' ← run evs1 s; run evs2 s'.
Proof.
  revert s. induction evs1 as [|ev evs1 IH]; intros s; simpl; [done|].
  destruct (step ev s); simpl; [apply IH | done].
Qed.

Lemma run_snoc evs ev s :
  run (evs ++ [ev]) s = s' ← run evs s; step ev s'.
Proof.
  rewrite run_app. destruct (run evs s) as [s'|]; simpl; [|done].
  by destruct (step ev s').
Qed.

Lemma reachable_init c : reachable c (init c).
Proof. by exists []. Qed.

Lemma reachable_step c s ev s' :
  reachable c s → step ev s = Some s' → reachable c s'.
Proof.
  intros [evs Hrun] Hstep. exists (evs ++ [ev]).
  rewrite run_snoc, Hrun. done.
Qed.

Lemma reachable_run c s evs s' :
  reachable c s → run evs s = Some s' → reachable c s'.
Proof.
  intros [evs0 Hrun0] Hrun. exists (evs0 ++ evs).
  rewrite run_app, Hrun0. done.
Qed.

(** Induction on the states that a cache reaches. *)
Lemma reachable_ind (c : Cache) (P : state → Prop) :
  P (init c) →
  (∀ s ev s', reachable c s → P s → step ev s = Some s' → P s') →
  ∀ s, reachable c s → P s.
Proof.
  intros Hinit Hstep s [evs Hrun]. revert s Hrun.
  induction evs as [|ev evs IH] using rev_ind; intros s Hrun.
  - by injection Hrun as <-.
  - rewrite run_snoc in Hrun.
    destruct (run evs (init c)) as [s0|] eqn:Hrun0; [|done].
    eapply (Hstep s0); [by exists evs | by apply IH | done].
Qed.

(** The shape of a step of a call. *)
Lemma step_Run_inv tid now done s s' :
  step (Run tid now done) s = Some s' →
  ∃ t c h sp p,
    threads s !! tid = Some t
    ∧ thread_step (t_method t) (t_pc t) now done (cache s) (heap s) (spawned s)
      = Some (c, h, sp, p)
    ∧ s' = {| cache := c; heap := h;
              threads := <[tid := mkThread (t_method t) p]> (threads s);
              spawned := sp; calls := calls s |}.
Proof.
  unfold step. intros H.
  apply bind_Some in H as (t & Ht & H).
  apply bind_Some in H as ([[[c h] sp] p] & Hts & H).
  injection H as <-. by eexists _, _, _, _, _.
Qed.

Lemma step_Fetch_inv elem res perm now s s' :
  step (Fetch elem res perm now) s = Some s' →
  ∃ item,
    elem ∈ spawned s
    ∧ heap s !! elem = Some item
    ∧ is_perm (length (res_addrs res)) perm = true
    ∧ s' = {| cache := cache s;
              heap := <[elem := cacheItem_lookup item res (minTTL (cache s))
                                  (maxTTL (cache s)) perm now]> (heap s);
              threads := threads s;
              spawned := list_Remove elem (spawned s);
              calls := calls s ++ [mkCall elem (key_name (item_key item))
                                          (item_tags item) res] |}.
Proof.
  simpl. intros H. case_decide; [|done].
  destruct (heap s !! elem) as [item|]; [|done]. simpl in H.
  destruct (is_perm _ perm) eqn:?; [|done].
  injection H as <-. by eexists.
Qed.

(** Case analysis on a step of a call: one goal for each way out of each
    program point. *)
Ltac thread_step_cases H :=
  match type of H with
  | thread_step _ ?p _ _ _ _ _ = Some _ =>
      destruct p; unfold thread_step in H; simpl in H;
      repeat first
        [ progress simplify_option_eq
        | match type of H with
          | context [match ?x with _ => _ end] => destruct x eqn:?
          | context [if ?x then _ else _] => destruct x eqn:?
          end ]
  end.

(** ** The statistics *)

Lemma owed_all_app ts1 ts2 : owed_all (ts1 ++ ts2) = owed_all ts1 + owed_all ts2.
Proof. induction ts1 as [|t ts1 IH]; simpl; lia. Qed.

Lemma owed_all_insert (ts : list thread) i t t' :
  ts !! i = Some t →
  owed_all (<[i := t']> ts) = owed_all ts - owed (t_pc t) + owed (t_pc t').
Proof.
  revert i. induction ts as [|t0 ts IH]; intros [|i] Hi; simplify_eq/=; [lia|].
  rewrite (IH i Hi). lia.
Qed.

Lemma thread_step_stats m p now done c h sp c' h' sp' p' E S M :
  thread_step m p now done c h sp = Some (c', h', sp', p') →
  c_evictions c = wrap64 E → c_size c = wrap64 S → c_misses c = wrap64 M →
  ∃ E' S' M',
    c_evictions c' = wrap64 E' ∧ c_size c' = wrap64 S' ∧ c_misses c' = wrap64 M'
    ∧ E' + S' - M' + owed p' = E + S - M + owed p.
Proof.
  intros H HE HS HM.
  thread_step_cases H; simpl; rewrite ?HE, ?HS, ?HM;
    (eexists _, _, _;
     split; [first [apply add64_wrap64 | reflexivity]|];
     split; [first [apply add64_wrap64 | reflexivity]|];
     split; [first [apply add64_wrap64 | reflexivity]|]);
    repeat match goal with b : bool |- _ => destruct b end; simpl; lia.
Qed.

Lemma stats_inv_step s ev s' : stats_inv s → step ev s = Some s' → stats_inv s'.
Proof.
  intros (E & S & M & HE & HS & HM & Hbal) Hstep. destruct ev as [m|tid now done|].
  - injection Hstep as <-. exists E, S, M. simpl.
    rewrite owed_all_app. simpl. repeat split; try done. lia.
  - apply step_Run_inv in Hstep as (t & c & h & sp & p & Ht & Hts & ->).
    destruct (thread_step_stats _ _ _ _ _ _ _ _ _ _ _ E S M Hts HE HS HM)
      as (E' & S' & M' & HE' & HS' & HM' & Hbal').
    exists E', S', M'. simpl. rewrite (owed_all_insert _ _ _ _ Ht). simpl.
    repeat split; try done. lia.
  - apply step_Fetch_inv in Hstep as (item & _ & _ & _ & ->).
    by exists E, S, M.
Qed.

Lemma stats_inv_init minttl maxttl maxbytes :
  stats_inv (init (newCache minttl maxttl maxbytes)).
Proof. by exists 0, 0, 0. Qed.

Lemma quiescent_owed s : quiescent s → owed_all (threads s) = 0.
Proof.
  unfold quiescent. induction 1 as [|t ts [r Hr] _ IH]; simpl; [done|].
  rewrite Hr. simpl. lia.
Qed.

(** C1: in every state that a cache reaches from the empty cache, by any
    interleaving of calls of [Resolve] and [Lookup], of their steps (hits,
    misses, cancellations, evictions of expired items, evictions under the
    budget) and of fetches, when every call has returned the counters satisfy
    [evictions + size == misses] in the arithmetic of [int64]. *)
Theorem C1_evictions_size_misses (minttl maxttl maxbytes : Z) (s : state) :
  reachable (newCache minttl maxttl maxbytes) s →
  quiescent s →
  add64 (Evictions (Stats (cache s))) (Size (Stats (cache s)))
  = Misses (Stats (cache s)).
Proof.
  intros Hreach Hq.
  assert (stats_inv s) as (E & S & M & HE & HS & HM & Hbal).
  { clear Hq. revert s Hreach. apply reachable_ind.
    - apply stats_inv_init.
    - intros s ev s' _. apply stats_inv_step. }
  simpl. rewrite HE, HS, HM, add64_wrap64_both.
  f_equal. rewrite (quiescent_owed s Hq) in Hbal. lia.
Qed.

Lemma C1_evictions_size_misses_witness :
  let s := final (newCache 0 0 64) small_cache_schedule in
  Stats (cache s)
  = {| Bytes := 0; Size := 0; Hits := 0; Misses := 2; Evictions := 2 |}
  ∧ add64 (Evictions (Stats (cache s))) (Size (Stats (cache s)))
    = Misses (Stats (cache s)).
Proof.
  split; [vm_compute; reflexivity|].
  apply (C1_evictions_size_misses 0 0 64).
  - exists small_cache_schedule. vm_compute. reflexivity.
  - vm_compute. repeat constructor; eexists; reflexivity.
Defined.

(** ** The counters over time *)








(** ** The map and the queue *)

Lemma key_of_lt h e k : key_of h e = Some k → (e < length h)%nat.
Proof.
  unfold key_of. intros H. apply fmap_Some in H as (it & Hit & _).
  by eapply lookup_lt_Some.
Qed.

Lemma list_Remove_elem e x q : x ∈ list_Remove e q ↔ x ∈ q ∧ x ≠ e.
Proof. unfold list_Remove. rewrite list_elem_of_filter. tauto. Qed.

Lemma list_Remove_NoDup e q : NoDup q → NoDup (list_Remove e q).
Proof. apply NoDup_filter. Qed.

Lemma list_Remove_notin e q : e ∉ q → list_Remove e q = q.
Proof.
  unfold list_Remove. induction q as [|x q IH]; intros Hin; [done|].
  rewrite filter_cons. apply not_elem_of_cons in Hin as [Hne Hin].
  rewrite decide_True by done. by rewrite IH.
Qed.

Lemma list_Remove_snoc q e : e ∉ q → list_Remove e (q ++ [e]) = q.
Proof.
  intros Hin. unfold list_Remove. rewrite filter_app.
  fold (list_Remove e q). rewrite list_Remove_notin by done.
  rewrite filter_cons, decide_False by (intros H; by apply H).
  by rewrite filter_nil, app_nil_r.
Qed.

Lemma lru_wf_empty h : lru_wf ∅ [] h.
Proof.
  split; [constructor| |].
  - intros e He. by apply elem_of_nil in He.
  - intros k e He. by rewrite lookup_empty in He.
Qed.

Lemma lru_wf_MoveToFront m q h e :
  lru_wf m q h → lru_wf m (list_MoveToFront e q) h.
Proof.
  intros [Hnd Hq Hm]. unfold list_MoveToFront. case_decide as Hin; [|done].
  assert (∀ x, x ∈ e :: list_Remove e q ↔ x ∈ q) as Hmem.
  { intros x. rewrite elem_of_cons, list_Remove_elem.
    destruct (decide (x = e)) as [->|Hne]; [tauto|].
    split; [intros [?|[? _]]; done | intros ?; right; done]. }
  split.
  - constructor; [|by apply list_Remove_NoDup].
    rewrite list_Remove_elem. intros [_ Hne]. by apply Hne.
  - intros x Hx. apply Hq. by apply Hmem.
  - intros k x Hx. destruct (Hm k x Hx) as [? ?]. split; [by apply Hmem|done].
Qed.

Lemma lru_wf_insert m q h k item :
  lru_wf m q h → m !! k = None → item_key item = k →
  lru_wf (<[k := length h]> m) (list_PushFront (length h) q) (h ++ [item]).
Proof.
  intros [Hnd Hq Hm] Hk Hitem. unfold list_PushFront.
  assert (∀ e, e ∈ q → (e < length h)%nat) as Hlt.
  { intros e He. destruct (Hq e He) as (k' & Hk' & _). by eapply key_of_lt. }
  assert (∀ e, (e < length h)%nat → key_of (h ++ [item]) e = key_of h e) as Hold.
  { intros e He. unfold key_of. by rewrite lookup_app_l. }
  assert (key_of (h ++ [item]) (length h) = Some k) as Hnew.
  { unfold key_of. rewrite lookup_app_r by lia.
    rewrite Nat.sub_diag. simpl. by rewrite Hitem. }
  split.
  - constructor; [|done]. intros Hin. apply Hlt in Hin. lia.
  - intros e He. apply elem_of_cons in He as [->|He].
    + exists k. split; [done|]. apply lookup_insert_eq.
    + destruct (Hq e He) as (k' & Hk' & Hme). exists k'.
      rewrite Hold by by apply Hlt. split; [done|].
      rewrite lookup_insert_ne; [done|]. intros <-. congruence.
  - intros k' e He. destruct (decide (k = k')) as [<-|Hne].
    + rewrite lookup_insert_eq in He. injection He as <-.
      split; [by left|done].
    + rewrite lookup_insert_ne in He by done.
      destruct (Hm k' e He) as [Hin Hke]. split; [by right|].
      rewrite Hold; [done|]. by apply Hlt.
Qed.

Lemma lru_wf_evict m q h k e :
  lru_wf m q h → m !! k = Some e →
  lru_wf (delete k m) (list_Remove e q) h.
Proof.
  intros [Hnd Hq Hm] Hk. split.
  - by apply list_Remove_NoDup.
  - intros x Hx. apply list_Remove_elem in Hx as [Hx Hne].
    destruct (Hq x Hx) as (k' & Hk' & Hmx). exists k'. split; [done|].
    rewrite lookup_delete_ne; [done|]. intros <-. congruence.
  - intros k' x Hx. apply lookup_delete_Some in Hx as [Hne Hx].
    destruct (Hm k' x Hx) as [Hin Hkx]. split; [|done].
    apply list_Remove_elem. split; [done|]. intros ->.
    destruct (Hm k e Hk) as [_ Hke]. congruence.
Qed.

Lemma lru_wf_heap m q h h' :
  lru_wf m q h → (∀ e k, key_of h e = Some k → key_of h' e = Some k) →
  lru_wf m q h'.
Proof.
  intros [Hnd Hq Hm] Hh. split; [done| |].
  - intros e He. destruct (Hq e He) as (k & Hk & Hme). exists k. auto.
  - intros k e He. destruct (Hm k e He). auto.
Qed.

Lemma lru_wf_queue_empty m q h : lru_wf m q h → q = [] → m = ∅.
Proof.
  intros [_ _ Hm] ->. apply map_empty. intros k.
  destruct (m !! k) as [e|] eqn:Hk; [|done].
  destruct (Hm k e Hk) as [Hin _]. by apply elem_of_nil in Hin.
Qed.

Lemma key_of_insert h e item item' e0 k :
  h !! e = Some item → item_key item' = item_key item →
  key_of h e0 = Some k → key_of (<[e := item']> h) e0 = Some k.
Proof.
  intros He Hkey. unfold key_of. destruct (decide (e = e0)) as [<-|Hne].
  - rewrite list_lookup_insert_eq by by eapply lookup_lt_Some.
    rewrite He. simpl. by rewrite Hkey.
  - by rewrite list_lookup_insert_ne.
Qed.

Lemma key_of_app h item e k :
  key_of h e = Some k → key_of (h ++ [item]) e = Some k.
Proof.
  intros H. unfold key_of. rewrite lookup_app_l; [done|]. by eapply key_of_lt.
Qed.

(** ** Well-formed states *)

Lemma last_elem_of (q : list nat) o : last q = Some o → o ∈ q.
Proof.
  intros H. apply last_Some in H as [q' ->]. apply elem_of_app. right. by left.
Qed.

Lemma thread_step_wf m p now done c h sp c' h' sp' p' :
  thread_step m p now done c h sp = Some (c', h', sp', p') →
  lru_wf (c_items c) (c_queue c) h →
  (∀ e, e ∈ pc_elems p → (e < length h)%nat) →
  (∀ e, e ∈ sp → (e < length h)%nat) →
  lru_wf (c_items c') (c_queue c') h'
  ∧ (∀ e, e ∈ pc_elems p' → (e < length h')%nat)
  ∧ (∀ e, e ∈ sp' → (e < length h')%nat)
  ∧ (∀ e k, key_of h e = Some k → key_of h' e = Some k).
Proof.
  intros H Hlru Hp Hsp.
  thread_step_cases H; simpl in *;
    try (split; [done|]; split; [|split; [done|done]];
         repeat match goal with b : bool |- _ => destruct b end; simpl;
         intros e0 He0;
         solve [ by apply elem_of_nil in He0
               | apply Hp; first [ exact He0
                                 | apply list_elem_of_singleton in He0 as ->;
                                   by left ] ]).
  - (* line 113, hit *)
    match goal with Hk : c_items c !! _ = Some _ |- _ =>
      destruct (lru_map _ _ _ Hlru _ _ Hk) as [_ Hkey] end.
    split; [by apply lru_wf_MoveToFront|].
    split; [|done]. intros e He. apply list_elem_of_singleton in He as ->.
    by eapply key_of_lt.
  - (* line 113, miss *)
    split; [by apply lru_wf_insert|]. rewrite length_app. simpl.
    split; [intros e He; apply list_elem_of_singleton in He as ->; lia|].
    split; [intros e He; apply Hsp in He; lia|].
    intros e k. apply key_of_app.
  - (* line 127 *)
    split; [done|]. split; [done|]. split; [|done].
    destruct hit; [done|]. intros e He. apply elem_of_cons in He as [->|He]; auto.
    apply Hp. by left.
  - (* line 140, the element is evicted *)
    split; [by apply lru_wf_evict|]. done.
  - (* line 172, the back of the queue is evicted *)
    match goal with
    | Hb : list_Back _ = Some ?o, Ho : h' !! ?o = Some ?it |- _ =>
        pose proof (last_elem_of _ _ Hb) as Hin;
        destruct (lru_queue _ _ _ Hlru _ Hin) as (k & Hkey & Hk);
        unfold key_of in Hkey; rewrite Ho in Hkey; injection Hkey as <-;
        pose proof (lookup_lt_Some _ _ _ Ho) as Hlt
    end.
    split; [by apply lru_wf_evict|]. split; [|done].
    intros e He. apply elem_of_cons in He as [->|He]; [apply Hp; by left|].
    by apply list_elem_of_singleton in He as ->.
  - (* line 192, Resolve increments the index *)
    rewrite length_insert.
    match goal with |- context [<[elem := ?it]> h] =>
      assert (∀ e k, key_of h e = Some k → key_of (<[elem := it]> h) e = Some k)
        as Hkeys by (intros e k; by eapply key_of_insert)
    end.
    split; [by eapply lru_wf_heap|]. split; [|done].
    intros e He. by apply elem_of_nil in He.
Qed.

Lemma wf_init c : c_items c = ∅ → c_queue c = [] → wf (init c).
Proof.
  intros Hm Hq. split; simpl.
  - rewrite Hm, Hq. apply lru_wf_empty.
  - intros t e Ht. by apply elem_of_nil in Ht.
  - intros e He. by apply elem_of_nil in He.
Qed.

Lemma wf_step s ev s' : wf s → step ev s = Some s' → wf s'.
Proof.
  intros [Hlru Hts Hsp] Hstep. destruct ev as [m|tid now done|].
  - injection Hstep as <-. split; simpl; [done| |done].
    intros t e Ht He. apply elem_of_app in Ht as [Ht|Ht]; [eauto|].
    apply list_elem_of_singleton in Ht as ->. by apply elem_of_nil in He.
  - apply step_Run_inv in Hstep as (t & c & h & sp & p & Ht & Hstep & ->).
    destruct (thread_step_wf _ _ _ _ _ _ _ _ _ _ _ Hstep Hlru) as (? & Hp & ? & Hkeys);
      [intros e; apply Hts; by eapply list_elem_of_lookup_2 | done |].
    assert (∀ e, (e < length (heap s))%nat → (e < length h)%nat) as Hmono.
    { intros e He. apply lookup_lt_is_Some in He as [it Hit].
      eapply key_of_lt, Hkeys. unfold key_of. by rewrite Hit. }
    split; simpl; [done| |done].
    intros t' e Ht' He. apply list_elem_of_lookup in Ht' as [i Hi].
    destruct (decide (i = tid)) as [->|Hne].
    + rewrite list_lookup_insert_eq in Hi by by eapply lookup_lt_Some.
      injection Hi as <-. by apply Hp.
    + rewrite list_lookup_insert_ne in Hi by done.
      eapply Hmono, Hts; [by eapply list_elem_of_lookup_2 | done].
  - apply step_Fetch_inv in Hstep as (item & Hin & Hitem & _ & ->).
    split; simpl.
    + eapply lru_wf_heap; [done|]. intros e k. by eapply key_of_insert.
    + intros t e Ht He. rewrite length_insert. eauto.
    + intros e He. rewrite length_insert. apply Hsp.
      by apply list_Remove_elem in He as [? _].
Qed.

Lemma reachable_wf minttl maxttl maxbytes s :
  reachable (newCache minttl maxttl maxbytes) s → wf s.
Proof.
  revert s. apply reachable_ind.
  - by apply wf_init.
  - intros s ev s' _. apply wf_step.
Qed.

(** ** A call running alone *)

Lemma thread_run_app n1 n2 m now st :
  thread_run (n1 + n2) m now st
  = st' ← thread_run n1 m now st; thread_run n2 m now st'.
Proof.
  revert st. induction n1 as [|n1 IH]; intros [[[c h] sp] p]; simpl; [done|].
  destruct (thread_step m p now None c h sp) as [st'|]; simpl; [apply IH|done].
Qed.

Lemma step_Run_eq tid now done s t c h sp p :
  threads s !! tid = Some t →
  thread_step (t_method t) (t_pc t) now done (cache s) (heap s) (spawned s)
  = Some (c, h, sp, p) →
  step (Run tid now done) s
  = Some {| cache := c; heap := h;
            threads := <[tid := mkThread (t_method t) p]> (threads s);
            spawned := sp; calls := calls s |}.
Proof. intros Ht Hstep. unfold step. rewrite Ht. simpl. by rewrite Hstep. Qed.

Lemma run_thread_run n tid m now s p c h sp p' :
  threads s !! tid = Some (mkThread m p) →
  thread_run n m now (cache s, heap s, spawned s, p) = Some (c, h, sp, p') →
  run (repeat (Run tid now None) n) s
  = Some {| cache := c; heap := h;
            threads := <[tid := mkThread m p']> (threads s);
            spawned := sp; calls := calls s |}.
Proof.
  revert s p. induction n as [|n IH]; intros s p Ht Hrun;
    simpl in Hrun; cbn [repeat run].
  - injection Hrun as <- <- <- <-. rewrite list_insert_id by done.
    by destruct s.
  - apply bind_Some in Hrun as ([[[c1 h1] sp1] p1] & Hstep & Hrun).
    rewrite (step_Run_eq _ _ _ _ _ c1 h1 sp1 p1 Ht Hstep). cbn [mbind option_bind].
    erewrite IH; [|by apply list_lookup_insert_eq; eapply lookup_lt_Some|done].
    cbn [threads calls]. by rewrite list_insert_insert_eq.
Qed.

(** ** Eviction under the byte budget *)

Lemma NoDup_snoc_notin (q : list nat) o : NoDup (q ++ [o]) → o ∉ q.
Proof.
  intros Hnd Hin. apply NoDup_app in Hnd as (_ & Hdisj & _).
  apply (Hdisj o Hin). by left.
Qed.

Lemma step_L172_evict m now done e b c h sp o oi :
  maxBytes c < b → c_items c ≠ ∅ →
  list_Back (c_queue c) = Some o → h !! o = Some oi →
  thread_step m (L172 e b) now done c h sp
  = Some (set_lru c (delete (item_key oi) (c_items c)) (list_Remove o (c_queue c)),
          h, sp, L186 e o).
Proof.
  intros Hlt Hne Hback Ho. unfold thread_step.
  apply Z.ltb_lt in Hlt. rewrite Hlt, decide_False by done.
  rewrite Hback. simpl. by rewrite Ho.
Qed.

Lemma step_L186 m now done e o oi c h sp :
  h !! o = Some oi →
  thread_step m (L186 e o) now done c h sp
  = Some (add_bytes c (- item_bytes oi), h, sp,
          L187 e (c_bytes (add_bytes c (- item_bytes oi)))).
Proof. intros Ho. unfold thread_step. by rewrite Ho. Qed.

(** One turn of the loop, as four steps of the call. *)
Lemma budget_turn m now e c h sp o oi :
  maxBytes c < c_bytes c → c_items c ≠ ∅ →
  list_Back (c_queue c) = Some o → h !! o = Some oi →
  thread_run 4 m now (c, h, sp, L172 e (c_bytes c))
  = Some (evict_one c o oi, h, sp, L172 e (c_bytes (evict_one c o oi))).
Proof.
  intros Hlt Hne Hback Ho. cbn [thread_run].
  rewrite (step_L172_evict m now None e _ c h sp o oi) by done.
  cbn [mbind option_bind]. rewrite (step_L186 _ _ _ _ _ oi) by done.
  reflexivity.
Qed.

Lemma budget_exit m now e c h sp :
  c_bytes c ≤ maxBytes c ∨ c_items c = ∅ →
  thread_run 1 m now (c, h, sp, L172 e (c_bytes c)) = Some (c, h, sp, L192 e).
Proof.
  intros Hexit. simpl. unfold thread_step.
  destruct (maxBytes c <? c_bytes c) eqn:Hlt; [|done].
  apply Z.ltb_lt in Hlt. destruct Hexit as [?|Hempty]; [lia|].
  by rewrite decide_True.
Qed.

(** The loop ends, after some number [k] of turns: each turn found the
    counter above the budget and the cache not empty, and at the end the
    counter is within the budget or the cache is empty. *)
Lemma budget_loop m now e h sp (n : nat) :
  ∀ c, length (c_queue c) = n → lru_wf (c_items c) (c_queue c) h →
  ∃ k, (k ≤ n)%nat
    ∧ thread_run (4 * k + 1) m now (c, h, sp, L172 e (c_bytes c))
      = Some (evict_lru k c h, h, sp, L192 e)
    ∧ lru_wf (c_items (evict_lru k c h)) (c_queue (evict_lru k c h)) h
    ∧ (c_bytes (evict_lru k c h) ≤ maxBytes c ∨ c_items (evict_lru k c h) = ∅)
    ∧ (∀ j, (j < k)%nat →
         maxBytes c < c_bytes (evict_lru j c h) ∧ c_items (evict_lru j c h) ≠ ∅).
Proof.
  induction n as [|n IH]; intros c Hlen Hwf.
  - exists 0%nat. split; [done|]. simpl evict_lru.
    assert (c_items c = ∅) as Hempty.
    { eapply lru_wf_queue_empty; [done|]. by apply nil_length_inv. }
    split; [apply budget_exit; by right|].
    split; [done|]. split; [by right|]. intros j Hj. lia.
  - destruct (decide (c_bytes c ≤ maxBytes c)) as [Hle|Hgt].
    { exists 0%nat. split; [lia|]. simpl evict_lru.
      split; [apply budget_exit; by left|].
      split; [done|]. split; [by left|]. intros j Hj. lia. }
    destruct (last (c_queue c)) as [o|] eqn:Hback.
    2:{ apply last_None in Hback. rewrite Hback in Hlen. done. }
    pose proof Hback as Hsnoc. apply last_Some in Hsnoc as [q' Hq].
    destruct (lru_queue _ _ _ Hwf o (last_elem_of _ _ Hback)) as (ko & Hko & Hmo).
    unfold key_of in Hko. apply fmap_Some in Hko as (oi & Hoi & ->).
    assert (c_items c ≠ ∅) as Hne.
    { intros Hempty. rewrite Hempty, lookup_empty in Hmo. done. }
    assert (list_Remove o (c_queue c) = q') as Hrem.
    { rewrite Hq. apply list_Remove_snoc, NoDup_snoc_notin.
      rewrite <-Hq. apply Hwf. }
    destruct (IH (evict_one c o oi)) as (k & Hk & Hrun & Hwf' & Hexit & Hnec).
    { simpl. rewrite Hrem. rewrite Hq, length_app in Hlen. simpl in Hlen. lia. }
    { simpl. by apply lru_wf_evict. }
    exists (S k). split; [lia|].
    assert (evict_lru (S k) c h = evict_lru k (evict_one c o oi) h) as Hunfold.
    { simpl. unfold list_Back. by rewrite Hback, Hoi. }
    rewrite Hunfold. split.
    { replace (4 * S k + 1)%nat with (4 + (4 * k + 1))%nat by lia.
      rewrite thread_run_app, (budget_turn m now e c h sp o oi); [done|lia|done..]. }
    split; [done|]. split; [done|].
    intros [|j] Hj.
    + simpl. split; [lia|done].
    + replace (evict_lru (S j) c h) with (evict_lru j (evict_one c o oi) h)
        by (simpl; unfold list_Back; by rewrite Hback, Hoi).
      apply Hnec. lia.
Qed.

(** What [k] turns of the loop leave in a well-formed cache. *)
Lemma evict_lru_spec h (k : nat) :
  ∀ c, lru_wf (c_items c) (c_queue c) h → (k ≤ length (c_queue c))%nat →
  c_queue (evict_lru k c h) = take (length (c_queue c) - k) (c_queue c)
  ∧ c_size (evict_lru k c h) = Nat.iter k (fun x => add64 x (-1)) (c_size c)
  ∧ c_evictions (evict_lru k c h) = Nat.iter k (fun x => add64 x 1) (c_evictions c)
  ∧ c_bytes (evict_lru k c h)
    = foldl (fun b v => add64 b (- bytes_of h v)) (c_bytes c)
            (rev (drop (length (c_queue c) - k) (c_queue c)))
  ∧ c_hits (evict_lru k c h) = c_hits c
  ∧ c_misses (evict_lru k c h) = c_misses c
  ∧ c_items (evict_lru k c h) ⊆ c_items c.
Proof.
  induction k as [|k IH]; intros c Hwf Hk.
  - simpl. rewrite Nat.sub_0_r, firstn_all, drop_all. done.
  - destruct (last (c_queue c)) as [o|] eqn:Hback.
    2:{ apply last_None in Hback. rewrite Hback in Hk. simpl in Hk. lia. }
    pose proof Hback as Hsnoc. apply last_Some in Hsnoc as [q' Hq].
    destruct (lru_queue _ _ _ Hwf o (last_elem_of _ _ Hback)) as (ko & Hko & Hmo).
    unfold key_of in Hko. apply fmap_Some in Hko as (oi & Hoi & ->).
    assert (list_Remove o (c_queue c) = q') as Hrem.
    { rewrite Hq. apply list_Remove_snoc, NoDup_snoc_notin.
      rewrite <-Hq. apply Hwf. }
    assert (evict_lru (S k) c h = evict_lru k (evict_one c o oi) h) as ->.
    { simpl. unfold list_Back. by rewrite Hback, Hoi. }
    assert (length (c_queue c) = S (length q')) as Hlen.
    { rewrite Hq, length_app. simpl. lia. }
    destruct (IH (evict_one c o oi)) as (Hqueue & Hsize & Hev & Hbytes & Hhits & Hmiss & Hsub).
    { simpl. by apply lru_wf_evict. }
    { simpl. rewrite Hrem. lia. }
    simpl in Hqueue, Hsize, Hev, Hbytes, Hhits, Hmiss, Hsub.
    rewrite Hrem in Hqueue, Hbytes.
    rewrite Hlen. replace (S (length q') - S k)%nat with (length q' - k)%nat by lia.
    rewrite Hq. rewrite take_app_le, drop_app_le by lia.
    rewrite rev_app_distr. simpl rev. simpl foldl.
    rewrite !Nat.iter_succ_r.
    unfold bytes_of at 2. rewrite Hoi. simpl from_option.
    do 6 (split; [done|]).
    etrans; [done|]. apply delete_subseteq.
Qed.


(** ** One fetch for each miss *)

Arguments occ : simpl never.

Lemma occ_app e l1 l2 : occ e (l1 ++ l2) = (occ e l1 + occ e l2)%nat.
Proof. apply count_occ_app. Qed.

Lemma occ_cons e x l :
  occ e (x :: l) = ((if decide (x = e) then 1 else 0) + occ e l)%nat.
Proof.
  unfold occ. simpl. destruct (Nat.eq_dec x e); case_decide; done.
Qed.

Lemma occ_nil e : occ e [] = 0%nat.
Proof. done. Qed.

Lemma occ_list_Remove e e0 l :
  occ e (list_Remove e0 l) = if decide (e = e0) then 0%nat else occ e l.
Proof.
  unfold list_Remove. induction l as [|x l IH]; [by case_decide|].
  rewrite filter_cons. destruct (decide (x ≠ e0)) as [Hx|Hx].
  - rewrite !occ_cons, IH. repeat case_decide; simplify_eq; done.
  - apply dec_stable in Hx as ->. rewrite IH, occ_cons.
    repeat case_decide; simplify_eq; done.
Qed.

Lemma occ_pos e l : e ∈ l → (0 < occ e l)%nat.
Proof.
  intros Hin. apply list_elem_of_In in Hin. by apply count_occ_In.
Qed.

Lemma occ_starting_insert e (ts : list thread) i t t' :
  ts !! i = Some t →
  (occ e (starting (<[i := t']> ts)) + occ e (option_list (start_elem (t_pc t))))%nat
  = (occ e (starting ts) + occ e (option_list (start_elem (t_pc t'))))%nat.
Proof.
  unfold starting.
  revert i. induction ts as [|t0 ts IH]; intros [|i] Hi; simplify_eq/=.
  - destruct (start_elem (t_pc t)), (start_elem (t_pc t')); simpl;
      rewrite ?occ_cons; lia.
  - specialize (IH i Hi).
    destruct (start_elem (t_pc t0)); simpl; rewrite ?occ_cons; lia.
Qed.

Lemma thread_step_fetches m p now done c h sp c' h' sp' p' e :
  thread_step m p now done c h sp = Some (c', h', sp', p') →
  (length h ≤ length h')%nat
  ∧ (occ e sp' + occ e (option_list (start_elem p')))%nat
    = (occ e sp + occ e (option_list (start_elem p))
       + if decide (length h ≤ e < length h')%nat then 1 else 0)%nat.
Proof.
  intros H.
  thread_step_cases H; simpl;
    rewrite ?length_insert, ?length_app, ?occ_cons; simpl;
    repeat match goal with b : bool |- _ => destruct b end; simpl;
    rewrite ?occ_cons; repeat case_decide; simplify_eq; simpl;
    repeat match goal with
      | H : context [length (_ ++ _)] |- _ => rewrite length_app in H; simpl in H
      | H : context [length (<[_ := _]> _)] |- _ => rewrite length_insert in H
      end;
    split; lia.
Qed.

Lemma fetch_inv_step s ev s' : fetch_inv s → step ev s = Some s' → fetch_inv s'.
Proof.
  intros Hinv Hstep e. specialize (Hinv e). unfold fetches in *.
  destruct ev as [m|tid now done|e0 res perm now].
  - injection Hstep as <-. simpl. unfold starting. rewrite omap_app. simpl.
    by rewrite app_nil_r.
  - apply step_Run_inv in Hstep as (t & c & h & sp & p & Ht & Hstep & ->).
    simpl. destruct (thread_step_fetches _ _ _ _ _ _ _ _ _ _ _ e Hstep) as [Hlen Hocc].
    pose proof (occ_starting_insert e _ _ _ (mkThread (t_method t) p) Ht) as Hins.
    simpl in Hins. repeat case_decide; lia.
  - apply step_Fetch_inv in Hstep as (item & Hin & Hitem & _ & ->).
    simpl. rewrite fmap_app, occ_app, occ_list_Remove, length_insert. simpl.
    rewrite occ_cons, occ_nil. apply occ_pos in Hin.
    repeat case_decide; simplify_eq; lia.
Qed.

Lemma reachable_fetch_inv c s : reachable c s → fetch_inv s.
Proof.
  revert s. apply reachable_ind.
  - intros e. unfold fetches. cbn [init calls spawned threads heap].
    rewrite decide_False by (simpl; lia). done.
  - intros s ev s' _. apply fetch_inv_step.
Qed.

Lemma fetch_inv_NoDup s : fetch_inv s → NoDup (call_elem <$> calls s).
Proof.
  intros Hinv. apply NoDup_ListNoDup, NoDup_count_occ with (decA := Nat.eq_dec).
  intros e. specialize (Hinv e). unfold fetches, occ in Hinv.
  case_decide; lia.
Qed.

(** ** What the callers observe *)

Lemma same_content_refl a : same_content a a.
Proof. by repeat split. Qed.

Lemma fmap_nth_seq (s : list string) d :
  (fun j => nth j s d) <$> seq 0 (length s) = s.
Proof.
  induction s as [|x s IH]; simpl; [done|]. f_equal.
  rewrite <-fmap_S_seq, <-list_fmap_compose. exact IH.
Qed.

Lemma shuffledStrings_Permutation perm s :
  is_perm (length s) perm = true → shuffledStrings perm s ≡ₚ s.
Proof.
  unfold is_perm, shuffledStrings. intros Hp. apply bool_decide_eq_true in Hp.
  trans ((fun j => nth j s ""%string) <$> seq 0 (length s)).
  - by apply fmap_Permutation.
  - by rewrite fmap_nth_seq.
Qed.

(** A step of a call leaves the items as they are, up to the index, and
    allocates at most one item, which is not ready. *)
Lemma thread_step_heap m p now done c h sp c' h' sp' p' :
  thread_step m p now done c h sp = Some (c', h', sp', p') →
  (∀ e item, h !! e = Some item →
     ∃ item', h' !! e = Some item' ∧ same_content item item')
  ∧ (∀ e item', h' !! e = Some item' →
       (∃ item, h !! e = Some item ∧ same_content item item')
       ∨ item_ready item' = false).
Proof.
  intros H.
  thread_step_cases H;
    try solve [split; intros; [|left]; eauto using same_content_refl].
  - (* line 113, miss *)
    split.
    + intros e0 it Hit. exists it. split; [|apply same_content_refl].
      rewrite lookup_app_l; [done|]. by eapply lookup_lt_Some.
    + intros e0 it Hit. apply lookup_app_Some in Hit as [Hit|[_ Hit]].
      * left. exists it. split; [done|apply same_content_refl].
      * right. apply list_lookup_singleton_Some in Hit as [_ <-]. done.
  - (* line 192, Resolve *)
    match goal with Hit0 : h !! ?el = Some ?it0 |- _ =>
      pose proof (lookup_lt_Some _ _ _ Hit0) as Hlt; split; intros e0 it Hit;
      (destruct (decide (e0 = el)) as [->|Hne];
       [rewrite ?list_lookup_insert_eq in * by done
       |rewrite ?list_lookup_insert_ne in * by done])
    end; simplify_eq.
    + eexists. split; [done|]. by repeat split.
    + exists it. split; [done|apply same_content_refl].
    + left. eexists. split; [done|]. by repeat split.
    + left. exists it. split; [done|apply same_content_refl].
Qed.

Lemma thread_step_past_select m p now done c h sp c' h' sp' p' e :
  thread_step m p now done c h sp = Some (c', h', sp', p') →
  past_select p' = Some e →
  past_select p = Some e
  ∨ ∃ item, h !! e = Some item ∧ item_ready item = true.
Proof.
  intros H Hp'.
  thread_step_cases H; simpl in *;
    repeat match goal with b : bool |- _ => destruct b end;
    simplify_eq/=; eauto.
Qed.

Lemma holds_result_same e a b cl :
  same_content a b → holds_result e a cl → holds_result e b cl.
Proof.
  intros (Hk & Ht & Ha & _ & _ & He & _) (? & ? & ? & ? & ?).
  unfold holds_result. rewrite <-Hk, <-Ht, <-Ha, <-He. done.
Qed.

Lemma observed_inv_step s ev s' :
  observed_inv s → step ev s = Some s' → observed_inv s'.
Proof.
  intros [Hitems Hts] Hstep. destruct ev as [m|tid now done|e0 res perm now].
  - injection Hstep as <-. split; simpl; [done|].
    intros t e Ht Hp. apply elem_of_app in Ht as [Ht|Ht]; [eauto|].
    apply list_elem_of_singleton in Ht as ->. done.
  - apply step_Run_inv in Hstep as (t & c & h & sp & p & Ht & Hstep & ->).
    destruct (thread_step_heap _ _ _ _ _ _ _ _ _ _ _ Hstep) as [Hfwd Hbwd].
    split; simpl.
    + intros e item' Hitem' Hready.
      destruct (Hbwd e item' Hitem') as [(item & Hitem & Hsame)|Hnew];
        [|congruence].
      destruct (Hitems e item Hitem) as (cl & Hcl & Hres).
      { destruct Hsame as (_ & _ & _ & _ & _ & _ & ->). done. }
      exists cl. split; [done|]. by eapply holds_result_same.
    + assert (∀ e, (∃ item, heap s !! e = Some item ∧ item_ready item = true) →
                   ∃ item, h !! e = Some item ∧ item_ready item = true) as Hkeep.
      { intros e (item & Hitem & Hready).
        destruct (Hfwd e item Hitem) as (item' & Hitem' & Hsame).
        exists item'. split; [done|].
        destruct Hsame as (_ & _ & _ & _ & _ & _ & <-). done. }
      intros t' e Ht' Hp'. apply list_elem_of_lookup in Ht' as [i Hi].
      destruct (decide (i = tid)) as [->|Hne].
      * rewrite list_lookup_insert_eq in Hi by by eapply lookup_lt_Some.
        injection Hi as <-. simpl in Hp'. apply Hkeep.
        destruct (thread_step_past_select _ _ _ _ _ _ _ _ _ _ _ e Hstep Hp')
          as [Hp|Hready]; [|done].
        eapply Hts; [by eapply list_elem_of_lookup_2|done].
      * rewrite list_lookup_insert_ne in Hi by done.
        apply Hkeep. eapply Hts; [by eapply list_elem_of_lookup_2|done].
  - apply step_Fetch_inv in Hstep as (item0 & Hin & Hitem0 & Hperm & ->).
    pose proof (lookup_lt_Some _ _ _ Hitem0) as Hlt.
    split; simpl.
    + intros e item Hitem Hready. destruct (decide (e = e0)) as [->|Hne].
      * rewrite list_lookup_insert_eq in Hitem by done. injection Hitem as <-.
        eexists. split; [apply elem_of_app; right; by left|].
        repeat split. simpl. by apply shuffledStrings_Permutation.
      * rewrite list_lookup_insert_ne in Hitem by done.
        destruct (Hitems e item Hitem Hready) as (cl & Hcl & Hres).
        exists cl. split; [|done]. apply elem_of_app. by left.
    + intros t e Ht Hp. destruct (Hts t e Ht Hp) as (item & Hitem & Hready).
      destruct (decide (e = e0)) as [->|Hne].
      * eexists. split; [by apply list_lookup_insert_eq|]. done.
      * exists item. by rewrite list_lookup_insert_ne.
Qed.

Lemma reachable_observed_inv c s : reachable c s → observed_inv s.
Proof.
  revert s. apply reachable_ind.
  - split; simpl.
    + intros e item He. by rewrite lookup_nil in He.
    + intros t e Ht. by apply elem_of_nil in Ht.
  - intros s ev s' _. apply observed_inv_step.
Qed.

Lemma NoDup_fmap_elem_inj (l : list backend_call) x y :
  NoDup (call_elem <$> l) → x ∈ l → y ∈ l → call_elem x = call_elem y → x = y.
Proof.
  induction l as [|z l IH]; intros Hnd Hx Hy Heq; [by apply elem_of_nil in Hx|].
  rewrite fmap_cons in Hnd. apply NoDup_cons in Hnd as [Hz Hnd].
  apply elem_of_cons in Hx as [->|Hx]; apply elem_of_cons in Hy as [->|Hy];
    [done| | |by apply IH].
  - exfalso. apply Hz. rewrite Heq. by apply list_elem_of_fmap_2.
  - exfalso. apply Hz. rewrite <-Heq. by apply list_elem_of_fmap_2.
Qed.



(** C5: when the registry returned no address and no error for the element
    that a call of [Resolve] returns with, [Resolve] fails with the
    [cacheError] of the name, which [isUnreachable] classifies as
    unreachable. *)
Theorem C5_no_results_unreachable (minttl maxttl maxbytes : Z) (s : state)
    (tid : nat) (name : string) (e : nat) (cl : backend_call)
    (now : Z) (done : option error) :
  reachable (newCache minttl maxttl maxbytes) s →
  threads s !! tid = Some (mkThread (Resolve name) (L192 e)) →
  cl ∈ calls s → call_elem cl = e →
  res_addrs (call_res cl) = [] → res_err (call_res cl) = None →
  ∃ s' err,
    step (Run tid now done) s = Some s'
    ∧ threads s' !! tid = Some (mkThread (Resolve name) (Returned (ResolveRet "" (Some err))))
    ∧ err = cacheError name
    ∧ isUnreachable (Some err) = true.
Proof.
  intros Hreach Ht Hcl He Haddrs Herr.
  pose proof (fetch_inv_NoDup _ (reachable_fetch_inv _ _ Hreach)) as Hnd.
  destruct (reachable_observed_inv _ _ Hreach) as [Hitems Hts].
  destruct (Hts _ e (list_elem_of_lookup_2 _ _ _ Ht) eq_refl)
    as (item & Hitem & Hready).
  destruct (Hitems e item Hitem Hready) as (cl0 & Hcl0 & Hres).
  assert (cl0 = cl) as ->.
  { eapply NoDup_fmap_elem_inj; [done..|]. destruct Hres as [-> _]. done. }
  destruct Hres as (_ & _ & _ & Herr0 & Haddrs0).
  rewrite Herr in Herr0. rewrite Haddrs in Haddrs0.
  apply Permutation_nil_r in Haddrs0.
  eexists _, _. split.
  { eapply step_Run_eq; [done|]. simpl. unfold thread_step.
    rewrite Hitem. simpl. rewrite Herr0. unfold Resolve_select.
    rewrite Haddrs0. simpl. done. }
  simpl. split; [|done].
  apply list_lookup_insert_eq. by eapply lookup_lt_Some.
Qed.

(** ** An item that is expired when its fetch completes *)

Lemma step_L192 m now done e item c h sp :
  h !! e = Some item →
  ∃ h', thread_step m (L192 e) now done c h sp
        = Some (c, h', sp, Returned (final_result m item now))
        ∧ length h' = length h.
Proof.
  intros He. unfold thread_step, final_result. rewrite He. simpl.
  destruct (item_err item); [by eexists|].
  destruct m; simpl; eexists; (split; [done|]); by rewrite ?length_insert.
Qed.

Lemma step_L166 m now done e c h sp :
  thread_step m (L166 e) now done c h sp = Some (add_size c 1, h, sp, L167 e).
Proof. done. Qed.

Lemma step_L167 m now done e c h sp :
  thread_step m (L167 e) now done c h sp = Some (add_misses c 1, h, sp, L169 e).
Proof. done. Qed.

Lemma step_L169 m now done e item c h sp :
  h !! e = Some item →
  thread_step m (L169 e) now done c h sp
  = Some (add_bytes c (item_bytes item), h, sp,
          L172 e (c_bytes (add_bytes c (item_bytes item)))).
Proof. intros He. unfold thread_step. by rewrite He. Qed.

Lemma step_L140_evict m now done e hit c h sp :
  c_items c !! method_key m = Some e →
  thread_step m (L140 e hit) now done c h sp
  = Some (set_lru c (delete (method_key m) (c_items c)) (list_Remove e (c_queue c)),
          h, sp, L150 e hit).
Proof. intros Hin. unfold thread_step. by rewrite decide_True. Qed.

Lemma step_L140_keep m now done e hit c h sp :
  c_items c !! method_key m ≠ Some e →
  thread_step m (L140 e hit) now done c h sp = Some (c, h, sp, stats_pc e hit).
Proof. intros Hout. unfold thread_step. by rewrite decide_False. Qed.

Lemma step_L150 m now done e hit item c h sp :
  h !! e = Some item →
  thread_step m (L150 e hit) now done c h sp
  = Some (add_bytes c (- item_bytes item), h, sp, L151 e hit).
Proof. intros He. unfold thread_step. by rewrite He. Qed.

Lemma step_L151 m now done e hit c h sp :
  thread_step m (L151 e hit) now done c h sp
  = Some (add_size c (-1), h, sp, L152 e hit).
Proof. done. Qed.

Lemma step_L152 m now done e hit c h sp :
  thread_step m (L152 e hit) now done c h sp
  = Some (add_evictions c 1, h, sp, if hit then L113 else stats_pc e hit).
Proof. done. Qed.

(** From line 166 a call that missed goes to its return without passing by
    line 113 again: three updates of the counters, the loop of the budget
    and the return. *)
Lemma miss_tail m now e item c h sp :
  lru_wf (c_items c) (c_queue c) h → h !! e = Some item →
  ∃ k c' h',
    thread_run (4 * k + 5) m now (c, h, sp, L166 e)
    = Some (c', h', sp, Returned (final_result m item now))
    ∧ length h' = length h
    ∧ c_items c' ⊆ c_items c.
Proof.
  intros Hwf He.
  pose (c0 := add_bytes (add_misses (add_size c 1) 1) (item_bytes item)).
  assert (lru_wf (c_items c0) (c_queue c0) h) as Hwf0 by done.
  destruct (budget_loop m now e h sp (length (c_queue c0)) c0 eq_refl Hwf0)
    as (k & Hk & Hrun & _ & _ & _).
  destruct (evict_lru_spec h k c0 Hwf0 Hk) as (_ & _ & _ & _ & _ & _ & Hsub).
  destruct (step_L192 m now None e item (evict_lru k c0 h) h sp He)
    as (h' & Hret & Hlen).
  exists k, (evict_lru k c0 h), h'.
  split; [|done].
  replace (4 * k + 5)%nat with (3 + ((4 * k + 1) + 1))%nat by lia.
  rewrite thread_run_app. cbn [thread_run].
  rewrite step_L166. cbn [mbind option_bind].
  rewrite step_L167. cbn [mbind option_bind].
  rewrite (step_L169 _ _ _ _ item) by done. cbn [mbind option_bind].
  rewrite thread_run_app. fold c0. rewrite Hrun. cbn [mbind option_bind thread_run].
  rewrite Hret. done.
Qed.

Lemma step_L132_expired m now e hit item c h sp :
  h !! e = Some item → item_ready item = true → item_ttl item < now →
  thread_step m (L132 e hit) now None c h sp = Some (c, h, sp, L140 e hit).
Proof.
  intros He Hready Hexp. unfold thread_step. rewrite He. simpl.
  rewrite Hready. apply Z.ltb_lt in Hexp. by rewrite Hexp.
Qed.

(** The call that created an element, at its [select] with the item ready
    and expired, running alone: it evicts the element if the map still holds
    it, and returns the item that was fetched. *)
Lemma expired_miss m now e item c h sp :
  lru_wf (c_items c) (c_queue c) h →
  h !! e = Some item → item_ready item = true → item_ttl item < now →
  ∃ n c' h',
    thread_run n m now (c, h, sp, L132 e false)
    = Some (c', h', sp, Returned (final_result m item now))
    ∧ length h' = length h
    ∧ c_items c' !! method_key m ≠ Some e.
Proof.
  intros Hwf He Hready Hexp.
  destruct (decide (c_items c !! method_key m = Some e)) as [Hin|Hout].
  - pose (c1 := add_evictions
                  (add_size
                     (add_bytes
                        (set_lru c (delete (method_key m) (c_items c))
                                 (list_Remove e (c_queue c)))
                        (- item_bytes item))
                     (-1))
                  1).
    assert (lru_wf (c_items c1) (c_queue c1) h) as Hwf1.
    { simpl. by apply lru_wf_evict. }
    destruct (miss_tail m now e item c1 h sp Hwf1 He) as (k & c' & h' & Hrun & Hlen & Hsub).
    exists (5 + (4 * k + 5))%nat, c', h'. split; [|split; [done|]].
    + rewrite thread_run_app. cbn [thread_run].
      rewrite (step_L132_expired m now e false item) by done.
      cbn [mbind option_bind]. rewrite step_L140_evict by done.
      cbn [mbind option_bind]. rewrite (step_L150 _ _ _ _ _ item) by done.
      cbn [mbind option_bind]. rewrite step_L151.
      cbn [mbind option_bind]. rewrite step_L152.
      cbn [mbind option_bind stats_pc]. exact Hrun.
    + intros Hc'. eapply lookup_weaken in Hc'; [|exact Hsub].
      simpl in Hc'. by rewrite lookup_delete_eq in Hc'.
  - destruct (miss_tail m now e item c h sp Hwf He) as (k & c' & h' & Hrun & Hlen & Hsub).
    exists (2 + (4 * k + 5))%nat, c', h'. split; [|split; [done|]].
    + rewrite thread_run_app. cbn [thread_run].
      rewrite (step_L132_expired m now e false item) by done.
      cbn [mbind option_bind]. rewrite step_L140_keep by done.
      cbn [mbind option_bind stats_pc]. exact Hrun.
    + intros Hc'. apply Hout. by eapply lookup_weaken.
Qed.

Lemma retry_only_after_hit m p now done c h sp c' h' sp' :
  thread_step m p now done c h sp = Some (c', h', sp', L113) →
  ∃ e, p = L152 e true.
Proof.
  intros H.
  thread_step_cases H;
    repeat match goal with b : bool |- _ => destruct b end;
    simplify_eq/=; eauto.
Qed.

(** C9: a call that created its element (a miss) and finds the item expired
    once the fetch completed, running alone, evicts the element if the map
    still holds it and returns what was fetched: it reaches its return in a
    bounded number of steps, with the result made of the item of its
    element, without allocating an element or starting a fetch. At line 152
    a miss goes on to the statistics (line 166) and a hit goes back to line
    113; no other step leads back to line 113. *)
Theorem C9_miss_consumes_expired (s : state) (tid : nat) (m : method)
    (e : nat) (item : cacheItem) (now : Z) :
  wf s →
  threads s !! tid = Some (mkThread m (L132 e false)) →
  heap s !! e = Some item →
  item_ready item = true →
  item_ttl item < now →
  (∃ n s',
      run (repeat (Run tid now None) n) s = Some s'
      ∧ threads s' !! tid = Some (mkThread m (Returned (final_result m item now)))
      ∧ c_items (cache s') !! method_key m ≠ Some e
      ∧ length (heap s') = length (heap s)
      ∧ spawned s' = spawned s
      ∧ calls s' = calls s)
  ∧ (∀ c h sp now' done',
        thread_step m (L152 e false) now' done' c h sp
        = Some (add_evictions c 1, h, sp, L166 e))
  ∧ (∀ c h sp now' done',
        thread_step m (L152 e true) now' done' c h sp
        = Some (add_evictions c 1, h, sp, L113))
  ∧ (∀ p now' done' c h sp c' h' sp',
        thread_step m p now' done' c h sp = Some (c', h', sp', L113) →
        ∃ e', p = L152 e' true).
Proof.
  intros Hwf Ht He Hready Hexp. split; [|split; [|split]].
  - destruct (expired_miss m now e item (cache s) (heap s) (spawned s))
      as (n & c' & h' & Hrun & Hlen & Hgone); [apply Hwf|done..|].
    exists n. eexists. split; [by eapply run_thread_run|].
    cbn [threads cache heap spawned calls]. split; [|done].
    apply list_lookup_insert_eq. by eapply lookup_lt_Some.
  - intros. apply step_L152.
  - intros. apply step_L152.
  - intros p now' done' c h sp c' h' sp'. apply retry_only_after_hit.
Qed.

(** ** Round-robin *)

Lemma mod_inj_window (k a j1 j2 : Z) :
  0 < k → 0 ≤ j1 < k → 0 ≤ j2 < k →
  (a + j1) mod k = (a + j2) mod k → j1 = j2.
Proof.
  intros Hk H1 H2 Heq.
  pose proof (Z.div_mod (a + j1) k ltac:(lia)) as E1.
  pose proof (Z.div_mod (a + j2) k ltac:(lia)) as E2.
  rewrite Heq in E1.
  assert (j1 - j2 = k * ((a + j1) / k - (a + j2) / k)) as Hd by lia.
  destruct (Z.lt_trichotomy ((a + j1) / k) ((a + j2) / k)) as [?|[?|?]]; nia.
Qed.

Lemma rotation_Permutation (addrs : list string) (i : Z) :
  0 ≤ i → addrs ≠ [] →
  pick addrs i <$> seq 0 (length addrs) ≡ₚ addrs.
Proof.
  intros Hi Hne.
  assert (0 < length addrs)%nat as Hk by (destruct addrs; [done|simpl; lia]).
  set (idx := fun j : nat =>
                Z.to_nat ((i + 1 + Z.of_nat j) mod Z.of_nat (length addrs))).
  assert (idx <$> seq 0 (length addrs) ≡ₚ seq 0 (length addrs)) as Hperm.
  { apply submseteq_length_Permutation; [|by rewrite length_fmap].
    apply NoDup_submseteq.
    - apply NoDup_fmap_2_strong; [|apply NoDup_seq].
      intros j1 j2 Hj1 Hj2 Heq.
      apply elem_of_seq in Hj1, Hj2. unfold idx in Heq.
      pose proof (Z.mod_pos_bound (i + 1 + Z.of_nat j1) (Z.of_nat (length addrs))
                    ltac:(lia)).
      pose proof (Z.mod_pos_bound (i + 1 + Z.of_nat j2) (Z.of_nat (length addrs))
                    ltac:(lia)).
      apply Z2Nat.inj in Heq; [|lia..].
      apply mod_inj_window in Heq; lia.
    - intros x Hx. apply list_elem_of_fmap in Hx as (j & -> & Hj).
      apply elem_of_seq. unfold idx.
      pose proof (Z.mod_pos_bound (i + 1 + Z.of_nat j) (Z.of_nat (length addrs))
                    ltac:(lia)).
      lia. }
  trans ((fun n => nth n addrs ""%string) <$> (idx <$> seq 0 (length addrs))).
  - by rewrite <-list_fmap_compose.
  - rewrite Hperm. by rewrite fmap_nth_seq.
Qed.

Lemma insert_snoc (ts : list thread) t t' :
  <[length ts := t']> (ts ++ [t]) = ts ++ [t'].
Proof.
  rewrite insert_app_r_alt by lia. by rewrite Nat.sub_diag.
Qed.

Lemma step_L113_hit m now done e c h sp :
  c_items c !! method_key m = Some e →
  thread_step m L113 now done c h sp
  = Some (set_lru c (c_items c) (list_MoveToFront e (c_queue c)), h, sp, L127 e true).
Proof. intros Hin. unfold thread_step. by rewrite Hin. Qed.

Lemma step_L127 m now done e hit c h sp :
  thread_step m (L127 e hit) now done c h sp
  = Some (c, h, if hit then sp else e :: sp, L132 e hit).
Proof. done. Qed.

Lemma step_L132_fresh m now e hit item c h sp :
  h !! e = Some item → item_ready item = true → now ≤ item_ttl item →
  thread_step m (L132 e hit) now None c h sp = Some (c, h, sp, stats_pc e hit).
Proof.
  intros He Hready Hnow. unfold thread_step. rewrite He. simpl.
  rewrite Hready. apply Z.ltb_ge in Hnow. by rewrite Hnow.
Qed.

Lemma step_L164 m now done e c h sp :
  thread_step m (L164 e) now done c h sp = Some (add_hits c 1, h, sp, L192 e).
Proof. done. Qed.

Lemma step_L192_Resolve name now done e item c h sp :
  h !! e = Some item → item_err item = None →
  thread_step (Resolve name) (L192 e) now done c h sp
  = Some (c, <[e := fst (Resolve_select name item)]> h, sp,
          Returned (snd (Resolve_select name item))).
Proof.
  intros He Herr. unfold thread_step. rewrite He. simpl. rewrite Herr.
  by destruct (Resolve_select name item).
Qed.

(** A call of [Resolve] that hits an item that is ready, without error and
    not expired: the five steps of the call. *)
Lemma hit_call_Resolve name now s e item :
  c_items (cache s) !! method_key (Resolve name) = Some e →
  heap s !! e = Some item →
  item_ready item = true → item_err item = None → now ≤ item_ttl item →
  run (hit_schedule (Resolve name) (length (threads s)) now) s
  = Some {| cache := add_hits (set_lru (cache s) (c_items (cache s))
                                 (list_MoveToFront e (c_queue (cache s)))) 1;
            heap := <[e := fst (Resolve_select name item)]> (heap s);
            threads := threads s
                       ++ [mkThread (Resolve name)
                                    (Returned (snd (Resolve_select name item)))];
            spawned := spawned s; calls := calls s |}.
Proof.
  intros Hin He Hready Herr Hnow. unfold hit_schedule. cbn [run].
  unfold step at 1. cbn [mbind option_bind].
  erewrite run_thread_run.
  - cbn [threads cache heap spawned calls]. by rewrite insert_snoc.
  - cbn [threads]. rewrite lookup_app_r by lia.
    by rewrite Nat.sub_diag.
  - cbn [thread_run cache heap spawned].
    rewrite (step_L113_hit _ _ _ e) by done. cbn [mbind option_bind].
    rewrite step_L127. cbn [mbind option_bind].
    rewrite (step_L132_fresh _ _ _ _ item) by done. cbn [mbind option_bind stats_pc].
    rewrite step_L164. cbn [mbind option_bind].
    rewrite (step_L192_Resolve _ _ _ _ item) by done. done.
Qed.

Lemma Resolve_select_spec name item :
  0 ≤ item_index item → item_index item + 1 < 2 ^ 64 → item_addrs item ≠ [] →
  Resolve_select name item
  = (set_index item (item_index item + 1),
     ResolveRet (pick (item_addrs item) (item_index item) 0) None).
Proof.
  intros Hlo Hhi Hne. unfold Resolve_select, pick, wrapu64.
  rewrite Z.mod_small by lia.
  destruct (Z.of_nat (length (item_addrs item)) =? 0) eqn:Hn.
  - apply Z.eqb_eq in Hn. destruct (item_addrs item); [done|simpl in Hn; lia].
  - simpl Z.of_nat at 2. by rewrite Z.add_0_r.
Qed.

Lemma resolve_rounds name e addrs (nows : list Z) :
  ∀ s item,
    c_items (cache s) !! method_key (Resolve name) = Some e →
    heap s !! e = Some item →
    item_ready item = true → item_err item = None →
    item_addrs item = addrs → addrs ≠ [] →
    Forall (fun now => now ≤ item_ttl item) nows →
    0 ≤ item_index item →
    item_index item + Z.of_nat (length nows) < 2 ^ 64 →
    ∃ s',
      run (resolve_schedule name (length (threads s)) nows) s = Some s'
      ∧ threads s' = threads s
                     ++ (resolved name <$> (pick addrs (item_index item)
                                            <$> seq 0 (length nows)))
      ∧ c_items (cache s') = c_items (cache s)
      ∧ length (heap s') = length (heap s)
      ∧ calls s' = calls s.
Proof.
  induction nows as [|now nows IH];
    intros s item Hin He Hready Herr Haddrs Hne Hnows Hlo Hhi.
  - exists s. simpl. by rewrite app_nil_r.
  - apply Forall_cons in Hnows as [Hnow Hnows].
    simpl length in Hhi.
    pose proof (lookup_lt_Some _ _ _ He) as Hlt.
    pose proof (hit_call_Resolve name now s e item Hin He Hready Herr Hnow) as Hcall.
    rewrite Resolve_select_spec in Hcall by (rewrite ?Haddrs; (done || lia)).
    cbn [fst snd] in Hcall. rewrite Haddrs in Hcall.
    match type of Hcall with _ = Some ?s1 =>
      destruct (IH s1 (set_index item (item_index item + 1))) as
        (s' & Hrun & Hts & Hitems & Hheap & Hcalls)
    end; cbn [cache heap threads set_lru add_hits c_items set_index
              item_ready item_err item_addrs item_ttl item_index];
      try done; try lia.
    { by apply list_lookup_insert_eq. }
    exists s'. split; [|split; [|split; [|split]]].
    + cbn [resolve_schedule]. rewrite run_app, Hcall. cbn [mbind option_bind].
      rewrite <-Hrun. cbn [threads]. rewrite length_app. simpl length.
      by rewrite Nat.add_1_r.
    + rewrite Hts. cbn [threads set_index item_index]. rewrite <-app_assoc.
      f_equal. simpl length. cbn [seq fmap list_fmap]. simpl app. f_equal.
      rewrite <-fmap_S_seq, <-!list_fmap_compose.
      apply list_fmap_ext. intros _ j _. simpl. unfold pick.
      replace (item_index item + 1 + Z.of_nat (S j))
        with (item_index item + 1 + 1 + Z.of_nat j) by lia.
      done.
    + by rewrite Hitems.
    + rewrite Hheap. cbn [heap]. by rewrite length_insert.
    + by rewrite Hcalls.
Qed.

(** C4: on an element whose item is ready, without error, with [k >= 1]
    addresses and not expired at any of the calls, [k] calls of [Resolve] in
    a row return, in this order, the addresses at the positions
    [(i + 1) mod k], ..., [(i + k) mod k], where [i] is the index of the item
    before the first call: each address of the list once (the index does not
    wrap around 2^64 within the [k] calls). *)
Theorem C4_round_robin (s : state) (name : string) (e : nat)
    (item : cacheItem) (nows : list Z) :
  c_items (cache s) !! method_key (Resolve name) = Some e →
  heap s !! e = Some item →
  item_ready item = true → item_err item = None →
  (1 ≤ length (item_addrs item))%nat →
  length nows = length (item_addrs item) →
  Forall (fun now => now ≤ item_ttl item) nows →
  0 ≤ item_index item →
  item_index item + Z.of_nat (length (item_addrs item)) < 2 ^ 64 →
  ∃ s' picked,
    run (resolve_schedule name (length (threads s)) nows) s = Some s'
    ∧ threads s' = threads s ++ (resolved name <$> picked)
    ∧ picked = pick (item_addrs item) (item_index item)
               <$> seq 0 (length (item_addrs item))
    ∧ picked ≡ₚ item_addrs item
    ∧ calls s' = calls s.
Proof.
  intros Hin He Hready Herr Hk Hlen Hnows Hlo Hhi.
  assert (item_addrs item ≠ []) as Hne.
  { intros Hnil. rewrite Hnil in Hk. simpl in Hk. lia. }
  destruct (resolve_rounds name e (item_addrs item) nows s item)
    as (s' & Hrun & Hts & _ & _ & Hcalls); try done.
  { by rewrite Hlen. }
  rewrite Hlen in Hts.
  exists s'. eexists. split; [done|]. split; [done|]. split; [done|].
  split; [|done]. by apply rotation_Permutation.
Qed.

(** ** The theorems on concrete runs *)


Lemma C4_round_robin_witness :
  ∃ s' picked,
    run (resolve_schedule "svc" 1 [6; 7; 8]) warm = Some s'
    ∧ threads s' = threads warm ++ (resolved "svc" <$> picked)
    ∧ picked = ["b"; "c"; "a"]%string
    ∧ picked ≡ₚ ["c"; "a"; "b"]%string.
Proof.
  destruct (C4_round_robin warm "svc" 0 warm_item [6; 7; 8])
    as (s' & picked & Hrun & Hts & Hpicked & Hperm & _).
  - vm_compute. reflexivity.
  - vm_compute. reflexivity.
  - reflexivity.
  - reflexivity.
  - simpl. lia.
  - reflexivity.
  - repeat constructor; simpl; lia.
  - simpl. lia.
  - simpl. lia.
  - exists s', picked. split; [exact Hrun|]. split; [exact Hts|].
    split; [exact Hpicked|exact Hperm].
Defined.

Lemma C5_no_results_unreachable_witness :
  let s := final (newCache 0 0 0)
                 (firstn 9 (miss_schedule (Resolve "missing") 0 0 no_results [] 5)) in
  ∃ s' err,
    step (Run 0 5 None) s = Some s'
    ∧ threads s' !! 0%nat
      = Some (mkThread (Resolve "missing") (Returned (ResolveRet "" (Some err))))
    ∧ err = cacheError "missing"
    ∧ isUnreachable (Some err) = true.
Proof.
  apply (C5_no_results_unreachable 0 0 0 _ 0 "missing" 0
           (mkCall 0 "missing" [] no_results) 5 None).
  - exists (firstn 9 (miss_schedule (Resolve "missing") 0 0 no_results [] 5)).
    vm_compute. reflexivity.
  - vm_compute. reflexivity.
  - vm_compute. apply list_elem_of_here.
  - reflexivity.
  - reflexivity.
  - reflexivity.
Defined.



Lemma C9_miss_consumes_expired_witness :
  let s := final (newCache 0 0 0)
                 (firstn 4 (miss_schedule (Resolve "svc") 0 0 abc [2; 0; 1]%nat 5)) in
  ∃ n s',
    run (repeat (Run 0 2000 None) n) s = Some s'
    ∧ threads s' !! 0%nat
      = Some (mkThread (Resolve "svc") (Returned (ResolveRet "a" None)))
    ∧ c_items (cache s') !! method_key (Resolve "svc") ≠ Some 0%nat.
Proof.
  destruct (C9_miss_consumes_expired
              (final (newCache 0 0 0)
                     (firstn 4 (miss_schedule (Resolve "svc") 0 0 abc [2; 0; 1]%nat 5)))
              0 (Resolve "svc") 0
              {| item_index := 0; item_key := mkKey "svc" ""; item_tags := [];
                 item_addrs := ["c"; "a"; "b"]%string; item_bytes := 278;
                 item_ttl := 1005; item_err := None; item_ready := true |}
              2000)
    as ((n & s' & Hrun & Hts & Hgone & _) & _).
  - apply (reachable_wf 0 0 0).
    exists (firstn 4 (miss_schedule (Resolve "svc") 0 0 abc [2; 0; 1]%nat 5)).
    vm_compute. reflexivity.
  - vm_compute. reflexivity.
  - vm_compute. reflexivity.
  - reflexivity.
  - simpl. lia.
  - exists n, s'. split; [exact Hrun|]. split; [exact Hts|exact Hgone].
Defined.

(** * Further properties of the cache *)

(** ** The queue and the map *)

Lemma lru_wf_size m q h : lru_wf m q h → size m = length q.
Proof.
  intros [Hnd Hq Hm].
  set (f := fun e : nat => (default (mkKey "" "") (key_of h e), e)).
  rewrite <-(length_fmap f q), <-length_map_to_list.
  apply Permutation_length, NoDup_Permutation.
  - apply NoDup_map_to_list.
  - apply NoDup_fmap_2; [|done]. by intros e1 e2 [= _ ->].
  - intros [k e]. rewrite elem_of_map_to_list, list_elem_of_fmap. split.
    + intros Hk. destruct (Hm k e Hk) as [Hin Hkey].
      exists e. split; [|done]. unfold f. by rewrite Hkey.
    + intros (e' & [= -> ->] & Hin).
      destruct (Hq e' Hin) as (k & Hkey & Hk). unfold f. by rewrite Hkey.
Qed.

(** X1: in every state that the cache reaches, under any interleaving, the
    queue holds no element twice, the map sends a key to an element exactly
    when the element is in the queue and its item has this key, and the map
    and the queue have the same number of entries. *)
Theorem X1_queue_map_consistent (minttl maxttl maxbytes : Z) (s : state) :
  reachable (newCache minttl maxttl maxbytes) s →
  NoDup (c_queue (cache s))
  ∧ (∀ k e, c_items (cache s) !! k = Some e
            ↔ e ∈ c_queue (cache s) ∧ key_of (heap s) e = Some k)
  ∧ size (c_items (cache s)) = length (c_queue (cache s)).
Proof.
  intros Hreach. destruct (reachable_wf _ _ _ _ Hreach) as [Hlru _ _].
  split; [apply Hlru|]. split; [|by eapply lru_wf_size].
  intros k e. split; [apply Hlru|].
  intros [Hin Hkey]. destruct (lru_queue _ _ _ Hlru e Hin) as (k' & Hkey' & Hk).
  congruence.
Qed.

Lemma X1_queue_map_consistent_witness :
  let s := final (newCache 0 0 0)
                 (miss_schedule (Resolve "svc") 0 0 abc [2; 0; 1]%nat 5
                  ++ miss_schedule (Resolve "db") 1 1 abc [0; 1; 2]%nat 6) in
  c_queue (cache s) = [1; 0]%nat
  ∧ size (c_items (cache s)) = length (c_queue (cache s)).
Proof.
  split; [vm_compute; reflexivity|].
  apply (X1_queue_map_consistent 0 0 0).
  exists (miss_schedule (Resolve "svc") 0 0 abc [2; 0; 1]%nat 5
          ++ miss_schedule (Resolve "db") 1 1 abc [0; 1; 2]%nat 6).
  vm_compute. reflexivity.
Defined.

(** ** Progress *)

Lemma called_inv_step s ev s' : called_inv s → step ev s = Some s' → called_inv s'.
Proof.
  intros Hinv Hstep. destruct ev as [m|tid now done|e0 res perm now].
  - injection Hstep as <-. done.
  - apply step_Run_inv in Hstep as (t & c & h & sp & p & Ht & Hstep & ->).
    destruct (thread_step_heap _ _ _ _ _ _ _ _ _ _ _ Hstep) as [Hfwd _].
    intros cl Hcl. destruct (Hinv cl Hcl) as (item & Hitem & Hready).
    destruct (Hfwd _ item Hitem) as (item' & Hitem' & Hsame).
    exists item'. split; [done|].
    destruct Hsame as (_ & _ & _ & _ & _ & _ & <-). done.
  - apply step_Fetch_inv in Hstep as (item0 & Hin & Hitem0 & Hperm & ->).
    pose proof (lookup_lt_Some _ _ _ Hitem0) as Hlt.
    intros cl Hcl. simpl in *.
    destruct (decide (call_elem cl = e0)) as [->|Hne].
    + eexists. split; [by apply list_lookup_insert_eq|]. done.
    + apply elem_of_app in Hcl as [Hcl|Hcl].
      * destruct (Hinv cl Hcl) as (item & Hitem & Hready).
        exists item. by rewrite list_lookup_insert_ne.
      * apply list_elem_of_singleton in Hcl as ->. done.
Qed.

Lemma reachable_called_inv c s : reachable c s → called_inv s.
Proof.
  revert s. apply reachable_ind.
  - intros cl Hcl. by apply elem_of_nil in Hcl.
  - intros s ev s' _. apply called_inv_step.
Qed.

Lemma occ_elem_of e l : (0 < occ e l)%nat → e ∈ l.
Proof.
  intros Hocc. apply list_elem_of_In. by apply (count_occ_In Nat.eq_dec).
Qed.

(** The fetch of an item that is not ready is still to come. *)
Lemma unready_fetch_pending c s e item :
  reachable c s → heap s !! e = Some item → item_ready item = false →
  e ∈ spawned s ∨ ∃ t, t ∈ threads s ∧ t_pc t = L127 e false.
Proof.
  intros Hreach He Hready.
  pose proof (reachable_fetch_inv _ _ Hreach e) as Hfetch.
  pose proof (reachable_called_inv _ _ Hreach) as Hcalled.
  unfold fetches in Hfetch.
  rewrite decide_True in Hfetch by by eapply lookup_lt_Some.
  assert (occ e (call_elem <$> calls s) = 0%nat) as Hnone.
  { destruct (occ e (call_elem <$> calls s)) eqn:Hocc; [done|].
    assert (e ∈ call_elem <$> calls s) as Hin by (apply occ_elem_of; lia).
    apply list_elem_of_fmap in Hin as (cl & -> & Hcl).
    destruct (Hcalled cl Hcl) as (item' & Hitem' & Hready'). congruence. }
  destruct (decide (0 < occ e (spawned s))%nat) as [Hsp|Hsp].
  - left. by apply occ_elem_of.
  - right. assert (e ∈ starting (threads s)) as Hin by (apply occ_elem_of; lia).
    unfold starting in Hin. apply list_elem_of_omap in Hin as (t & Ht & Hstart).
    exists t. split; [done|].
    destruct (t_pc t) as [|e' [|]| | | | | | | | | | | | | | |]; simplify_eq/=. done.
Qed.

(** A call that has not returned can take its next step, unless it waits at
    its [select] for an item that is not ready. *)
Lemma thread_step_enabled m p c h sp :
  lru_wf (c_items c) (c_queue c) h →
  (∀ e, e ∈ pc_elems p → (e < length h)%nat) →
  (∀ r, p ≠ Returned r) →
  (∀ now, ∃ st, thread_step m p now None c h sp = Some st)
  ∨ (∃ e hit item, p = L132 e hit ∧ h !! e = Some item ∧ item_ready item = false).
Proof.
  intros Hlru Hp Hnr.
  assert (∀ e, e ∈ pc_elems p → is_Some (h !! e)) as Hsome.
  { intros e He. apply lookup_lt_is_Some. by apply Hp. }
  destruct p; simpl in Hsome;
    try (destruct (Hsome elem ltac:(by left)) as [item Hitem]);
    try (left; intros now; unfold thread_step; rewrite ?Hitem; simpl; by eauto).
  - (* line 113 *)
    left. intros now. unfold thread_step.
    destruct (c_items c !! method_key m); by eauto.
  - (* line 132 *)
    destruct (item_ready item) eqn:Hready; [|right; by eauto 10].
    left. intros now. unfold thread_step. rewrite Hitem. simpl. rewrite Hready.
    destruct (item_ttl item <? now); by eauto.
  - (* line 140 *)
    left. intros now. unfold thread_step. case_decide; by eauto.
  - (* line 172 *)
    left. intros now. unfold thread_step.
    destruct (maxBytes c <? bytes); [|by eauto].
    case_decide as Hempty; [by eauto|].
    destruct (last (c_queue c)) as [o|] eqn:Hback.
    + destruct (lru_queue _ _ _ Hlru o (last_elem_of _ _ Hback)) as (k & Hkey & _).
      unfold key_of in Hkey. apply fmap_Some in Hkey as (oi & Hoi & _).
      unfold list_Back. rewrite Hback. simpl. rewrite Hoi. simpl. by eauto.
    + apply last_None in Hback. exfalso. apply Hempty.
      by eapply lru_wf_queue_empty.
  - (* line 186 *)
    destruct (Hsome oldest ltac:(right; by left)) as [oi Hoi].
    left. intros now. unfold thread_step. rewrite Hoi. simpl. by eauto.
  - (* line 192 *)
    left. intros now. unfold thread_step. rewrite Hitem. simpl.
    destruct (item_err item); [by eauto|].
    destruct m; simpl; by eauto.
  - (* returned *)
    by destruct (Hnr r).
Qed.

(** X2: in every state that the cache reaches, a call that has not returned
    can take its next step (no nil element is dereferenced, at line 181 in
    particular), unless it waits at its [select] for an item that is not
    ready; then the fetch of that item is still to come (its goroutine is
    started, or the call that missed is about to start it), and the call can
    leave by the cancellation of its context. *)
Theorem X2_progress (minttl maxttl maxbytes : Z) (s : state) (tid : nat) (t : thread) :
  reachable (newCache minttl maxttl maxbytes) s →
  threads s !! tid = Some t →
  (∀ r, t_pc t ≠ Returned r) →
  (∀ now, ∃ s', step (Run tid now None) s = Some s')
  ∨ (∃ e hit item,
       t_pc t = L132 e hit ∧ heap s !! e = Some item ∧ item_ready item = false
       ∧ (e ∈ spawned s ∨ ∃ t', t' ∈ threads s ∧ t_pc t' = L127 e false)
       ∧ ∀ now err, ∃ s', step (Run tid now (Some err)) s = Some s').
Proof.
  intros Hreach Ht Hnr.
  destruct (reachable_wf _ _ _ _ Hreach) as [Hlru Hts _].
  assert (∀ e, e ∈ pc_elems (t_pc t) → (e < length (heap s))%nat) as Hp.
  { intros e. apply Hts. by eapply list_elem_of_lookup_2. }
  destruct (thread_step_enabled (t_method t) (t_pc t) (cache s) (heap s)
              (spawned s) Hlru Hp Hnr) as [Hgo|Hwait].
  - left. intros now. destruct (Hgo now) as [[[[c h] sp] p] Hstep].
    eexists. by eapply step_Run_eq.
  - right. destruct Hwait as (e & hit & item & Hpc & He & Hready).
    exists e, hit, item. do 3 (split; [done|]).
    split; [by eapply unready_fetch_pending|].
    intros now err. eexists. eapply step_Run_eq; [done|].
    rewrite Hpc. unfold thread_step. done.
Qed.

Lemma X2_progress_witness :
  let s := final (newCache 0 0 0)
                 (firstn 3 (miss_schedule (Resolve "svc") 0 0 abc [2; 0; 1]%nat 5)) in
  (∀ now, ∃ s', step (Run 0 now None) s = Some s')
  ∨ (∃ e hit item,
       L132 0 false = L132 e hit ∧ heap s !! e = Some item ∧ item_ready item = false
       ∧ (e ∈ spawned s ∨ ∃ t', t' ∈ threads s ∧ t_pc t' = L127 e false)
       ∧ ∀ now err, ∃ s', step (Run 0 now (Some err)) s = Some s').
Proof.
  apply (X2_progress 0 0 0 _ 0 (mkThread (Resolve "svc") (L132 0 false))).
  - exists (firstn 3 (miss_schedule (Resolve "svc") 0 0 abc [2; 0; 1]%nat 5)).
    vm_compute. reflexivity.
  - vm_compute. reflexivity.
  - intros r. discriminate.
Defined.

(** ** Items once ready *)

Lemma same_content_trans a b c :
  same_content a b → same_content b c → same_content a c.
Proof.
  intros (? & ? & ? & ? & ? & ? & ?) (? & ? & ? & ? & ? & ? & ?).
  repeat split; congruence.
Qed.

Lemma ready_item_step c s e item ev s' :
  reachable c s → heap s !! e = Some item → item_ready item = true →
  step ev s = Some s' →
  ∃ item', heap s' !! e = Some item' ∧ same_content item item'.
Proof.
  intros Hreach He Hready Hstep. destruct ev as [m|tid now done|e0 res perm now].
  - injection Hstep as <-. exists item. split; [done|apply same_content_refl].
  - apply step_Run_inv in Hstep as (t & c1 & h & sp & p & Ht & Hstep & ->).
    destruct (thread_step_heap _ _ _ _ _ _ _ _ _ _ _ Hstep) as [Hfwd _].
    by apply Hfwd.
  - apply step_Fetch_inv in Hstep as (item0 & Hin & Hitem0 & Hperm & ->).
    simpl. destruct (decide (e = e0)) as [->|Hne].
    + exfalso.
      destruct (reachable_observed_inv _ _ Hreach) as [Hitems _].
      destruct (Hitems e0 item He Hready) as (cl & Hcl & <- & _).
      pose proof (reachable_fetch_inv _ _ Hreach (call_elem cl)) as Hfetch.
      unfold fetches in Hfetch.
      pose proof (occ_pos _ _ Hin).
      pose proof (occ_pos _ _ (list_elem_of_fmap_2 call_elem _ _ Hcl)).
      case_decide; lia.
    + exists item. rewrite list_lookup_insert_ne by done.
      split; [done|apply same_content_refl].
Qed.

(** X3: once the item of an element is ready, nothing changes its key, tags,
    addresses, footprint, expiry and error, whatever runs afterwards; only
    its index moves. *)
Theorem X3_ready_item_immutable (minttl maxttl maxbytes : Z) (s s' : state)
    (e : nat) (item : cacheItem) (evs : list event) :
  reachable (newCache minttl maxttl maxbytes) s →
  heap s !! e = Some item → item_ready item = true →
  run evs s = Some s' →
  ∃ item', heap s' !! e = Some item' ∧ same_content item item'.
Proof.
  revert s item. induction evs as [|ev evs IH]; intros s item Hreach He Hready Hrun.
  - injection Hrun as <-. exists item. split; [done|apply same_content_refl].
  - simpl in Hrun. apply bind_Some in Hrun as (s1 & Hstep & Hrun).
    destruct (ready_item_step _ _ _ _ _ _ Hreach He Hready Hstep)
      as (item1 & He1 & Hsame1).
    destruct (IH s1 item1) as (item' & He' & Hsame'); [|done| |done|].
    + by eapply reachable_step.
    + destruct Hsame1 as (_ & _ & _ & _ & _ & _ & <-). done.
    + exists item'. split; [done|]. by eapply same_content_trans.
Qed.

Lemma X3_ready_item_immutable_witness :
  ∃ item', heap (final (newCache 0 0 0)
                   (miss_schedule (Resolve "svc") 0 0 abc [2; 0; 1]%nat 5
                    ++ hit_schedule (Resolve "svc") 1 7)) !! 0%nat = Some item'
           ∧ same_content warm_item item'.
Proof.
  apply (X3_ready_item_immutable 0 0 0 warm _ 0 warm_item
           (hit_schedule (Resolve "svc") 1 7)).
  - exists (miss_schedule (Resolve "svc") 0 0 abc [2; 0; 1]%nat 5).
    vm_compute. reflexivity.
  - vm_compute. reflexivity.
  - reflexivity.
  - vm_compute. reflexivity.
Defined.

(** ** The tags of a lookup *)

Lemma thread_step_tags m p now done c h sp c' h' sp' p' :
  thread_step m p now done c h sp = Some (c', h', sp', p') →
  Forall (fun it => item_tags it = []) h →
  Forall (fun it => item_tags it = []) h'.
Proof.
  intros H Hall. thread_step_cases H; try done.
  - apply Forall_app. split; [done|]. by repeat constructor.
  - apply Forall_insert; [done|]. simpl. eapply Forall_lookup_1 in Hall; done.
Qed.

Lemma tags_step s ev s' :
  Forall (fun it => item_tags it = []) (heap s)
  ∧ Forall (fun cl => call_tags cl = []) (calls s) →
  step ev s = Some s' →
  Forall (fun it => item_tags it = []) (heap s')
  ∧ Forall (fun cl => call_tags cl = []) (calls s').
Proof.
  intros [Hitems Hcalls] Hstep. destruct ev as [m|tid now done|e0 res perm now].
  - injection Hstep as <-. done.
  - apply step_Run_inv in Hstep as (t & c & h & sp & p & Ht & Hstep & ->).
    split; [|done]. by eapply thread_step_tags.
  - apply step_Fetch_inv in Hstep as (item0 & Hin & Hitem0 & Hperm & ->).
    pose proof (Forall_lookup_1 _ _ _ _ Hitems Hitem0) as Htags.
    simpl in Htags. split; simpl.
    + by apply Forall_insert.
    + apply Forall_app. split; [done|]. by repeat constructor.
Qed.

Lemma reachable_tags c s :
  reachable c s →
  Forall (fun it => item_tags it = []) (heap s)
  ∧ Forall (fun cl => call_tags cl = []) (calls s).
Proof.
  revert s. apply reachable_ind; [by split|].
  intros s ev s' _. apply tags_step.
Qed.

(** X4: the registry is never given the tags of a lookup: in every state
    that the cache reaches, every call of the registry that was made carries
    an empty list of tags ([newCacheItem] does not keep the tags that
    [Cache.lookup] hands it, and the fetch passes the tags of the item). *)
Theorem X4_registry_called_without_tags (minttl maxttl maxbytes : Z) (s : state)
    (cl : backend_call) :
  reachable (newCache minttl maxttl maxbytes) s →
  cl ∈ calls s →
  call_tags cl = []
  ∧ ∃ item, heap s !! call_elem cl = Some item
            ∧ item_tags item = []
            ∧ call_name cl = key_name (item_key item).
Proof.
  intros Hreach Hcl.
  destruct (reachable_tags _ _ Hreach) as [Hitems Hcalls].
  split; [by eapply (proj1 (Forall_forall _ _) Hcalls)|].
  destruct (reachable_called_inv _ _ Hreach cl Hcl) as (item & Hitem & Hready).
  exists item. split; [done|].
  split; [by eapply (Forall_lookup_1 _ _ _ _ Hitems Hitem)|].
  destruct (reachable_observed_inv _ _ Hreach) as [Hobs _].
  destruct (Hobs _ item Hitem Hready) as (cl' & Hcl' & Helem & Hname & _).
  assert (cl' = cl) as ->; [|done].
  eapply NoDup_fmap_elem_inj; [|done..].
  apply fetch_inv_NoDup. by eapply reachable_fetch_inv.
Qed.

Lemma X4_registry_called_without_tags_witness :
  let cl := mkCall 0 "svc" [] abc in
  call_tags cl = []
  ∧ ∃ item,
      heap (final (newCache 0 0 0)
              (miss_schedule (Lookup "svc" ["eu"; "blue"]%string) 0 0 abc
                             [2; 0; 1]%nat 5)) !! call_elem cl = Some item
      ∧ item_tags item = []
      ∧ call_name cl = key_name (item_key item).
Proof.
  apply (X4_registry_called_without_tags 0 0 0).
  - exists (miss_schedule (Lookup "svc" ["eu"; "blue"]%string) 0 0 abc [2; 0; 1]%nat 5).
    vm_compute. reflexivity.
  - vm_compute. apply list_elem_of_here.
Defined.

(** ** What [Resolve] and [Lookup] return *)

Lemma thread_step_key m p now done c h sp c' h' sp' p' :
  thread_step m p now done c h sp = Some (c', h', sp', p') →
  lru_wf (c_items c) (c_queue c) h →
  (∀ e, pc_elem p = Some e → key_of h e = Some (method_key m)) →
  ∀ e, pc_elem p' = Some e → key_of h' e = Some (method_key m).
Proof.
  intros H Hlru Hp e He.
  thread_step_cases H; simpl in *;
    repeat match goal with b : bool |- _ => destruct b end;
    simplify_eq/=; try (by apply Hp).
  - match goal with Hk : c_items c !! _ = Some _ |- _ =>
      by destruct (lru_map _ _ _ Hlru _ _ Hk) end.
  - unfold key_of. rewrite lookup_app_r by lia. by rewrite Nat.sub_diag.
Qed.

Lemma thread_key_inv_step s ev s' :
  wf s → thread_key_inv s → step ev s = Some s' → thread_key_inv s'.
Proof.
  intros [Hlru Hts Hsp] Hinv Hstep. destruct ev as [m|tid now done|e0 res perm now].
  - injection Hstep as <-. intros t e Ht Hp. simpl in *.
    apply elem_of_app in Ht as [Ht|Ht]; [by apply Hinv|].
    apply list_elem_of_singleton in Ht as ->. done.
  - apply step_Run_inv in Hstep as (t & c & h & sp & p & Ht & Hstep & ->).
    pose proof (list_elem_of_lookup_2 _ _ _ Ht) as Htin.
    destruct (thread_step_wf _ _ _ _ _ _ _ _ _ _ _ Hstep Hlru) as (_ & _ & _ & Hkeys);
      [intros e; by apply Hts | done |].
    intros t' e Ht' Hp'. simpl in *.
    apply list_elem_of_lookup in Ht' as [i Hi].
    destruct (decide (i = tid)) as [->|Hne].
    + rewrite list_lookup_insert_eq in Hi by by eapply lookup_lt_Some.
      injection Hi as <-. simpl in *.
      eapply thread_step_key; [done..| |done]. intros e'. by apply Hinv.
    + rewrite list_lookup_insert_ne in Hi by done.
      apply Hkeys, Hinv; [by eapply list_elem_of_lookup_2|done].
  - apply step_Fetch_inv in Hstep as (item0 & Hin & Hitem0 & Hperm & ->).
    intros t e Ht Hp. simpl in *. eapply key_of_insert; [done..|].
    by apply Hinv.
Qed.

Lemma reachable_thread_key_inv minttl maxttl maxbytes s :
  reachable (newCache minttl maxttl maxbytes) s → thread_key_inv s.
Proof.
  revert s. apply reachable_ind.
  - intros t e Ht. by apply elem_of_nil in Ht.
  - intros s ev s' Hreach. apply thread_key_inv_step. by eapply reachable_wf.
Qed.

(** A call at its return holds an item that is ready, filled by the one call
    of the registry made for its element, under the name of the call and
    without tags. *)
Lemma returning_call minttl maxttl maxbytes s tid m e :
  reachable (newCache minttl maxttl maxbytes) s →
  threads s !! tid = Some (mkThread m (L192 e)) →
  ∃ item cl,
    heap s !! e = Some item ∧ item_ready item = true
    ∧ cl ∈ calls s ∧ call_elem cl = e
    ∧ call_name cl = method_name m ∧ call_tags cl = []
    ∧ item_err item = res_err (call_res cl)
    ∧ item_addrs item ≡ₚ res_addrs (call_res cl).
Proof.
  intros Hreach Ht.
  pose proof (list_elem_of_lookup_2 _ _ _ Ht) as Htin.
  destruct (reachable_observed_inv _ _ Hreach) as [Hitems Hts].
  destruct (Hts _ e Htin eq_refl) as (item & Hitem & Hready).
  destruct (Hitems e item Hitem Hready) as (cl & Hcl & Helem & Hname & _ & Herr & Haddrs).
  pose proof (reachable_thread_key_inv _ _ _ _ Hreach _ e Htin eq_refl) as Hkey.
  unfold key_of in Hkey. rewrite Hitem in Hkey. injection Hkey as Hkey.
  destruct (reachable_tags _ _ Hreach) as [_ Hcalls].
  pose proof (proj1 (Forall_forall _ _) Hcalls cl Hcl) as Htags.
  exists item, cl. do 4 (split; [done|]).
  split; [by rewrite Hname, Hkey|]. done.
Qed.

(** X5: a call of [Resolve] that reaches its return answers from the one
    call of the registry made for its element, under its name: the error of
    the registry if there is one, the [cacheError] of the name if the
    registry returned no address, and otherwise one of the addresses that
    the registry returned. *)
Theorem X5_Resolve_result (minttl maxttl maxbytes : Z) (s : state) (tid : nat)
    (name : string) (e : nat) :
  reachable (newCache minttl maxttl maxbytes) s →
  threads s !! tid = Some (mkThread (Resolve name) (L192 e)) →
  ∃ cl,
    cl ∈ calls s ∧ call_elem cl = e ∧ call_name cl = name
    ∧ ∀ now done, ∃ s' r,
        step (Run tid now done) s = Some s'
        ∧ threads s' !! tid = Some (mkThread (Resolve name) (Returned r))
        ∧ match res_err (call_res cl) with
          | Some err => r = ResolveRet "" (Some err)
          | None =>
              if decide (res_addrs (call_res cl) = [])
              then r = ResolveRet "" (Some (cacheError name))
              else ∃ a, r = ResolveRet a None ∧ a ∈ res_addrs (call_res cl)
          end.
Proof.
  intros Hreach Ht.
  destruct (returning_call _ _ _ _ _ _ _ Hreach Ht)
    as (item & cl & Hitem & Hready & Hcl & Helem & Hname & _ & Herr & Haddrs).
  exists cl. do 3 (split; [done|]). intros now done.
  pose proof (lookup_lt_Some _ _ _ Ht) as Hlt.
  destruct (item_err item) as [err|] eqn:Hierr.
  - eexists _, _. split.
    { eapply step_Run_eq; [done|]. simpl. unfold thread_step.
      rewrite Hitem. simpl. rewrite Hierr. done. }
    simpl. split; [by apply list_lookup_insert_eq|]. by rewrite <-Herr.
  - eexists _, _. split.
    { eapply step_Run_eq; [done|]. simpl.
      by apply (step_L192_Resolve _ _ _ _ item). }
    simpl. split; [by apply list_lookup_insert_eq|]. rewrite <-Herr.
    unfold Resolve_select. simpl.
    destruct (item_addrs item) as [|a0 addrs] eqn:Hia.
    + apply Permutation_nil in Haddrs. rewrite Haddrs.
      by rewrite decide_True.
    + rewrite decide_False
        by (intros Hnil; rewrite Hnil in Haddrs; by apply Permutation_nil_r in Haddrs).
      destruct (Z.of_nat (length (a0 :: addrs)) =? 0) eqn:Hn;
        [apply Z.eqb_eq in Hn; simpl in Hn; lia|].
      eexists. split; [done|]. rewrite <-Haddrs.
      apply list_elem_of_In, nth_In.
      pose proof (Z.mod_pos_bound (wrapu64 (item_index item + 1))
                    (Z.of_nat (length (a0 :: addrs))) ltac:(simpl; lia)).
      lia.
Qed.

(** X6: a call of [Lookup] that reaches its return answers from the one call
    of the registry made for its element, which carried the name of the
    lookup and no tag: the error of the registry with no address and a zero
    time-to-live if there is one, and otherwise the addresses that the
    registry returned, in some order, with the time left before the expiry
    of the item, which is never negative. The lookup leaves the items as
    they are. *)
Theorem X6_Lookup_result (minttl maxttl maxbytes : Z) (s : state) (tid : nat)
    (name : string) (tags : list string) (e : nat) :
  reachable (newCache minttl maxttl maxbytes) s →
  threads s !! tid = Some (mkThread (Lookup name tags) (L192 e)) →
  ∃ cl item,
    cl ∈ calls s ∧ call_elem cl = e ∧ call_name cl = name ∧ call_tags cl = []
    ∧ heap s !! e = Some item
    ∧ ∀ now done, ∃ s' r,
        step (Run tid now done) s = Some s'
        ∧ threads s' !! tid = Some (mkThread (Lookup name tags) (Returned r))
        ∧ heap s' = heap s
        ∧ match res_err (call_res cl) with
          | Some err => r = LookupRet [] 0 (Some err)
          | None =>
              ∃ addrs ttl,
                r = LookupRet addrs ttl None
                ∧ addrs ≡ₚ res_addrs (call_res cl)
                ∧ ttl = Z.max 0 (Z.min MaxInt64 (item_ttl item - now))
                ∧ 0 ≤ ttl ≤ MaxInt64
          end.
Proof.
  intros Hreach Ht.
  destruct (returning_call _ _ _ _ _ _ _ Hreach Ht)
    as (item & cl & Hitem & Hready & Hcl & Helem & Hname & Htags & Herr & Haddrs).
  exists cl, item. do 5 (split; [done|]). intros now done.
  pose proof (lookup_lt_Some _ _ _ Ht) as Hlt.
  rewrite <-Herr. destruct (item_err item) as [err|] eqn:Hierr.
  - eexists _, _. split.
    { eapply step_Run_eq; [done|]. simpl. unfold thread_step.
      rewrite Hitem. simpl. rewrite Hierr. done. }
    simpl. split; [by apply list_lookup_insert_eq|]. done.
  - eexists _, _. split.
    { eapply step_Run_eq; [done|]. simpl. unfold thread_step.
      rewrite Hitem. simpl. rewrite Hierr. done. }
    simpl. split; [by apply list_lookup_insert_eq|]. split; [done|].
    eexists _, _. split; [done|]. split; [done|].
    unfold Time_Sub, MinInt64, MaxInt64.
    destruct (item_ttl item <? now) eqn:Hexp;
      [apply Z.ltb_lt in Hexp|apply Z.ltb_ge in Hexp]; lia.
Qed.

Lemma X5_Resolve_result_witness :
  let s := final (newCache 0 0 0)
                 (firstn 9 (miss_schedule (Resolve "svc") 0 0 abc [2; 0; 1]%nat 5)) in
  ∃ cl,
    cl ∈ calls s ∧ call_elem cl = 0%nat ∧ call_name cl = "svc"%string
    ∧ ∀ now done, ∃ s' r,
        step (Run 0 now done) s = Some s'
        ∧ threads s' !! 0%nat = Some (mkThread (Resolve "svc") (Returned r))
        ∧ match res_err (call_res cl) with
          | Some err => r = ResolveRet "" (Some err)
          | None =>
              if decide (res_addrs (call_res cl) = [])
              then r = ResolveRet "" (Some (cacheError "svc"))
              else ∃ a, r = ResolveRet a None ∧ a ∈ res_addrs (call_res cl)
          end.
Proof.
  apply (X5_Resolve_result 0 0 0).
  - exists (firstn 9 (miss_schedule (Resolve "svc") 0 0 abc [2; 0; 1]%nat 5)).
    vm_compute. reflexivity.
  - vm_compute. reflexivity.
Defined.

Lemma X6_Lookup_result_witness :
  let m := Lookup "svc" ["eu"; "blue"]%string in
  let s := final (newCache 0 0 0)
                 (firstn 9 (miss_schedule m 0 0 abc [2; 0; 1]%nat 5)) in
  ∃ cl item,
    cl ∈ calls s ∧ call_elem cl = 0%nat ∧ call_name cl = "svc"%string
    ∧ call_tags cl = []
    ∧ heap s !! 0%nat = Some item
    ∧ ∀ now done, ∃ s' r,
        step (Run 0 now done) s = Some s'
        ∧ threads s' !! 0%nat = Some (mkThread m (Returned r))
        ∧ heap s' = heap s
        ∧ match res_err (call_res cl) with
          | Some err => r = LookupRet [] 0 (Some err)
          | None =>
              ∃ addrs ttl,
                r = LookupRet addrs ttl None
                ∧ addrs ≡ₚ res_addrs (call_res cl)
                ∧ ttl = Z.max 0 (Z.min MaxInt64 (item_ttl item - now))
                ∧ 0 ≤ ttl ≤ MaxInt64
          end.
Proof.
  apply (X6_Lookup_result 0 0 0).
  - exists (firstn 9 (miss_schedule (Lookup "svc" ["eu"; "blue"]%string) 0 0 abc
                                    [2; 0; 1]%nat 5)).
    vm_compute. reflexivity.
  - vm_compute. reflexivity.
Defined.

(** ** Hits, misses and calls of the registry without cancellation *)

Lemma sum_pcs_app f ts1 ts2 : sum_pcs f (ts1 ++ ts2) = sum_pcs f ts1 + sum_pcs f ts2.
Proof. induction ts1 as [|t ts1 IH]; simpl; lia. Qed.

Lemma sum_pcs_insert f (ts : list thread) i t t' :
  ts !! i = Some t →
  sum_pcs f (<[i := t']> ts) = sum_pcs f ts - f (t_pc t) + f (t_pc t').
Proof.
  revert i. induction ts as [|t0 ts IH]; intros [|i] Hi; simplify_eq/=; [lia|].
  rewrite (IH i Hi). lia.
Qed.

Lemma quiescent_counted s :
  quiescent s →
  sum_pcs counted (threads s) = Z.of_nat (length (threads s))
  ∧ sum_pcs uncounted_miss (threads s) = 0.
Proof.
  unfold quiescent. induction 1 as [|t ts [r Hr] _ [IH1 IH2]]; [done|].
  cbn [sum_pcs foldr length]. fold (sum_pcs counted ts).
  fold (sum_pcs uncounted_miss ts). rewrite Hr, IH1, IH2. simpl. lia.
Qed.

Lemma thread_step_accounting m p now c h sp c' h' sp' p' H M :
  thread_step m p now None c h sp = Some (c', h', sp', p') →
  c_hits c = wrap64 H → c_misses c = wrap64 M →
  ∃ H' M',
    c_hits c' = wrap64 H' ∧ c_misses c' = wrap64 M'
    ∧ H' + M' - counted p' = H + M - counted p
    ∧ M' + uncounted_miss p' - Z.of_nat (length h')
      = M + uncounted_miss p - Z.of_nat (length h).
Proof.
  intros Hstep HH HM.
  thread_step_cases Hstep; simpl; rewrite ?HH, ?HM;
    (eexists _, _;
     split; [first [apply add64_wrap64 | reflexivity]|];
     split; [first [apply add64_wrap64 | reflexivity]|]);
    repeat match goal with b : bool |- _ => destruct b end; simpl;
    rewrite ?length_app, ?length_insert; simpl; lia.
Qed.

Lemma accounting_inv_step s ev s' :
  accounting_inv s → no_cancel ev → step ev s = Some s' → accounting_inv s'.
Proof.
  intros (H & M & HH & HM & Hcount & Hheap) Hnc Hstep.
  destruct ev as [m|tid now [err|]|e0 res perm now]; [|done| |].
  - injection Hstep as <-. exists H, M. simpl. rewrite !sum_pcs_app. simpl.
    repeat split; try done; lia.
  - apply step_Run_inv in Hstep as (t & c & h & sp & p & Ht & Hstep & ->).
    destruct (thread_step_accounting _ _ _ _ _ _ _ _ _ _ H M Hstep HH HM)
      as (H' & M' & HH' & HM' & Hc & Hu).
    exists H', M'. simpl. rewrite !(sum_pcs_insert _ _ _ _ _ Ht). simpl.
    repeat split; try done; lia.
  - apply step_Fetch_inv in Hstep as (item & _ & _ & _ & ->).
    exists H, M. simpl. rewrite length_insert. done.
Qed.

Lemma thread_step_creating m p now c h sp c' h' sp' p' e item' :
  thread_step m p now None c h sp = Some (c', h', sp', p') →
  h' !! e = Some item' →
  (∃ item, h !! e = Some item ∧ item_ready item = item_ready item'
           ∧ (creating p e → creating p' e ∨ item_ready item = true))
  ∨ creating p' e.
Proof.
  intros Hstep He. unfold creating.
  thread_step_cases Hstep;
    try (left; exists item'; split; [done|]; split; [done|];
         intros [?|?]; simplify_eq; by eauto).
  - (* line 113, miss *)
    apply lookup_app_Some in He as [He|[Hge He]].
    + left. exists item'. split; [done|]. split; [done|]. intros [?|?]; done.
    + apply list_lookup_singleton_Some in He as [Hz _].
      right. left. do 2 f_equal. lia.
  - (* line 192, Resolve *)
    match goal with Hit : h !! ?el = Some ?it0 |- _ =>
      pose proof (lookup_lt_Some _ _ _ Hit) as Hlt;
      destruct (decide (e = el)) as [->|Hne];
      [rewrite list_lookup_insert_eq in He by done; injection He as <-;
       left; exists it0
      |rewrite list_lookup_insert_ne in He by done; left; exists item']
    end; (split; [done|]; split; [done|]; intros [?|?]; done).
Qed.

Lemma created_inv_step s ev s' :
  created_inv s → no_cancel ev → step ev s = Some s' → created_inv s'.
Proof.
  intros Hinv Hnc Hstep.
  destruct ev as [m|tid now [err|]|e0 res perm now]; [|done| |].
  - injection Hstep as <-. intros e item He. simpl in *.
    destruct (Hinv e item He) as [?|(t & Ht & Hc)]; [by left|].
    right. exists t. split; [|done]. apply elem_of_app. by left.
  - apply step_Run_inv in Hstep as (t & c & h & sp & p & Ht & Hstep & ->).
    intros e item' He. simpl in *.
    assert (mkThread (t_method t) p ∈ <[tid := mkThread (t_method t) p]> (threads s))
      as Hnew.
    { eapply list_elem_of_lookup_2, list_lookup_insert_eq. by eapply lookup_lt_Some. }
    destruct (thread_step_creating _ _ _ _ _ _ _ _ _ _ e item' Hstep He)
      as [(item & Hitem & Hready & Hkeep)|Hc].
    2:{ right. by eexists. }
    destruct (Hinv e item Hitem) as [?|(t0 & Ht0 & Hc0)]; [left; congruence|].
    apply list_elem_of_lookup in Ht0 as [i Hi].
    destruct (decide (i = tid)) as [->|Hne].
    + assert (t0 = t) as -> by congruence.
      destruct (Hkeep Hc0) as [Hc|?]; [|left; congruence].
      right. by eexists.
    + right. exists t0. split; [|done].
      eapply list_elem_of_lookup_2. by rewrite list_lookup_insert_ne.
  - apply step_Fetch_inv in Hstep as (item0 & Hin & Hitem0 & Hperm & ->).
    intros e item He. simpl in *. destruct (decide (e = e0)) as [->|Hne].
    + rewrite list_lookup_insert_eq in He by by eapply lookup_lt_Some.
      injection He as <-. by left.
    + rewrite list_lookup_insert_ne in He by done. by apply Hinv.
Qed.

Lemma occ_seq_length (l : list nat) (n : nat) :
  (∀ e, occ e l = if decide (e < n)%nat then 1%nat else 0%nat) → length l = n.
Proof.
  intros Hocc. trans (length (seq 0 n)); [|apply length_seq].
  apply Permutation_length, NoDup_Permutation.
  - apply NoDup_ListNoDup, NoDup_count_occ with (decA := Nat.eq_dec).
    intros e. specialize (Hocc e). unfold occ in Hocc. case_decide; lia.
  - apply NoDup_seq.
  - intros e. rewrite elem_of_seq. specialize (Hocc e). split.
    + intros Hin. apply occ_pos in Hin. case_decide; lia.
    + intros Hlt. apply occ_elem_of. rewrite decide_True in Hocc by lia. lia.
Qed.

(** X8: when no call is cancelled, once every call has returned, the hits and
    the misses add up to the number of calls of [Resolve] and [Lookup] that
    were made, the misses are as many as the elements ever inserted, and the
    registry was called exactly once for each of them (the counters being
    read in the arithmetic of [int64]). *)
Theorem X8_accounting_without_cancellation (minttl maxttl maxbytes : Z)
    (evs : list event) (s : state) :
  run evs (init (newCache minttl maxttl maxbytes)) = Some s →
  Forall no_cancel evs →
  quiescent s →
  add64 (Hits (Stats (cache s))) (Misses (Stats (cache s)))
  = wrap64 (Z.of_nat (length (threads s)))
  ∧ Misses (Stats (cache s)) = wrap64 (Z.of_nat (length (heap s)))
  ∧ length (calls s) = length (heap s).
Proof.
  intros Hrun Hnc Hq.
  assert (accounting_inv s ∧ created_inv s) as [Hacc Hcr].
  { clear Hq. revert s Hrun Hnc.
    induction evs as [|ev evs IH] using rev_ind; intros s Hrun Hnc.
    - injection Hrun as <-. split.
      + exists 0, 0. done.
      + intros e item He. simpl in He. by rewrite lookup_nil in He.
    - rewrite run_snoc in Hrun. apply bind_Some in Hrun as (s0 & Hrun0 & Hstep).
      apply Forall_app in Hnc as [Hnc Hev]. apply Forall_cons in Hev as [Hev _].
      destruct (IH s0 Hrun0 Hnc) as [Hacc Hcr].
      split.
      + exact (accounting_inv_step _ _ _ Hacc Hev Hstep).
      + exact (created_inv_step _ _ _ Hcr Hev Hstep). }
  destruct Hacc as (H & M & HH & HM & Hcount & Hheap).
  destruct (quiescent_counted s Hq) as [Hc Hu].
  simpl. rewrite HH, HM, add64_wrap64_both.
  split; [f_equal; lia|]. split; [f_equal; lia|].
  assert (reachable (newCache minttl maxttl maxbytes) s) as Hreach by by exists evs.
  destruct (reachable_observed_inv _ _ Hreach) as [Hitems _].
  rewrite <-(length_fmap call_elem). apply occ_seq_length. intros e.
  pose proof (reachable_fetch_inv _ _ Hreach e) as Hfetch. unfold fetches in Hfetch.
  case_decide as Hlt; [|lia].
  apply lookup_lt_is_Some in Hlt as [item He].
  destruct (Hcr e item He) as [Hready|(t & Ht & Hc')].
  - destruct (Hitems e item He Hready) as (cl & Hcl & <- & _).
    pose proof (occ_pos _ _ (list_elem_of_fmap_2 call_elem _ _ Hcl)). lia.
  - exfalso. unfold quiescent in Hq.
    destruct (proj1 (Forall_forall _ _) Hq t Ht) as [r Hr].
    destruct Hc' as [Hc'|Hc']; congruence.
Qed.

Lemma X8_accounting_without_cancellation_witness :
  let s := final (newCache 0 0 0)
                 (miss_schedule (Resolve "svc") 0 0 abc [2; 0; 1]%nat 5
                  ++ hit_schedule (Resolve "svc") 1 7) in
  add64 (Hits (Stats (cache s))) (Misses (Stats (cache s))) = 2
  ∧ Misses (Stats (cache s)) = 1
  ∧ length (calls s) = 1%nat.
Proof.
  apply (X8_accounting_without_cancellation 0 0 0
           (miss_schedule (Resolve "svc") 0 0 abc [2; 0; 1]%nat 5
            ++ hit_schedule (Resolve "svc") 1 7)).
  - vm_compute. reflexivity.
  - repeat constructor.
  - vm_compute. repeat constructor; eexists; reflexivity.
Defined.

(** ** The size counter without cancellation *)

Lemma thread_step_size m p now c h sp c' h' sp' p' S :
  thread_step m p now None c h sp = Some (c', h', sp', p') →
  lru_wf (c_items c) (c_queue c) h →
  c_size c = wrap64 S →
  ∃ S',
    c_size c' = wrap64 S'
    ∧ S' - Z.of_nat (size (c_items c')) - size_ahead p'
      = S - Z.of_nat (size (c_items c)) - size_ahead p.
Proof.
  intros Hstep Hlru HS.
  thread_step_cases Hstep; simpl; rewrite ?HS;
    (eexists; split; [first [apply add64_wrap64 | reflexivity]|]);
    repeat match goal with b : bool |- _ => destruct b end; simpl;
    try lia.
  - (* line 113, miss *)
    rewrite map_size_insert_None by done. lia.
  - (* line 140, a hit evicts *)
    match goal with Hk : c_items c !! _ = Some _ |- _ =>
      pose proof (map_size_delete_Some _ _ (mk_is_Some _ _ Hk));
      pose proof (map_size_ne_0_lookup_2 _ _ (mk_is_Some _ _ Hk)) end. lia.
  - (* line 140, a miss evicts *)
    match goal with Hk : c_items c !! _ = Some _ |- _ =>
      pose proof (map_size_delete_Some _ _ (mk_is_Some _ _ Hk));
      pose proof (map_size_ne_0_lookup_2 _ _ (mk_is_Some _ _ Hk)) end. lia.
  - (* line 172 *)
    match goal with
    | Hb : list_Back _ = Some ?o, Ho : h' !! ?o = Some ?it |- _ =>
        pose proof (last_elem_of _ _ Hb) as Hin;
        destruct (lru_queue _ _ _ Hlru _ Hin) as (k & Hkey & Hk);
        unfold key_of in Hkey; rewrite Ho in Hkey; injection Hkey as <-;
        pose proof (map_size_delete_Some _ _ (mk_is_Some _ _ Hk));
        pose proof (map_size_ne_0_lookup_2 _ _ (mk_is_Some _ _ Hk))
    end. lia.
Qed.

Lemma size_inv_step s ev s' :
  wf s → size_inv s → no_cancel ev → step ev s = Some s' → size_inv s'.
Proof.
  intros [Hlru _ _] (S & HS & Hsize) Hnc Hstep.
  destruct ev as [m|tid now [err|]|e0 res perm now]; [|done| |].
  - injection Hstep as <-. exists S. simpl. rewrite sum_pcs_app. simpl.
    split; [done|lia].
  - apply step_Run_inv in Hstep as (t & c & h & sp & p & Ht & Hstep & ->).
    destruct (thread_step_size _ _ _ _ _ _ _ _ _ _ S Hstep Hlru HS) as (S' & HS' & Hd).
    exists S'. simpl. rewrite (sum_pcs_insert _ _ _ _ _ Ht). simpl.
    split; [done|lia].
  - apply step_Fetch_inv in Hstep as (item & _ & _ & _ & ->). by exists S.
Qed.

Lemma quiescent_size_ahead s : quiescent s → sum_pcs size_ahead (threads s) = 0.
Proof.
  unfold quiescent. induction 1 as [|t ts [r Hr] _ IH]; [done|].
  cbn [sum_pcs foldr]. fold (sum_pcs size_ahead ts). rewrite Hr, IH. done.
Qed.

Lemma wrap64_sub_r a b : wrap64 (a - wrap64 b) = wrap64 (a - b).
Proof.
  unfold wrap64. f_equal.
  replace (a - ((b + 2 ^ 63) mod 2 ^ 64 - 2 ^ 63) + 2 ^ 63)
    with (a + 2 ^ 63 + 2 ^ 63 - (b + 2 ^ 63) mod 2 ^ 64) by lia.
  rewrite Zminus_mod_idemp_r. f_equal. lia.
Qed.

Lemma wrap64_sub_both a b : wrap64 (wrap64 a - wrap64 b) = wrap64 (a - b).
Proof.
  rewrite wrap64_sub_r. replace (wrap64 a - b) with (wrap64 a + - b) by lia.
  by rewrite wrap64_add_l.
Qed.

Lemma reachable_stats_inv minttl maxttl maxbytes s :
  reachable (newCache minttl maxttl maxbytes) s → stats_inv s.
Proof.
  revert s. apply reachable_ind.
  - apply stats_inv_init.
  - intros s ev s' _. apply stats_inv_step.
Qed.

Lemma run_no_cancel_inv minttl maxttl maxbytes evs s :
  run evs (init (newCache minttl maxttl maxbytes)) = Some s →
  Forall no_cancel evs →
  accounting_inv s ∧ size_inv s.
Proof.
  revert s. induction evs as [|ev evs IH] using rev_ind; intros s Hrun Hnc.
  - injection Hrun as <-. split; [by exists 0, 0|by exists 0].
  - rewrite run_snoc in Hrun. apply bind_Some in Hrun as (s0 & Hrun0 & Hstep).
    apply Forall_app in Hnc as [Hnc Hev]. apply Forall_cons in Hev as [Hev _].
    destruct (IH s0 Hrun0 Hnc) as [Hacc Hsize]. split.
    + exact (accounting_inv_step _ _ _ Hacc Hev Hstep).
    + refine (size_inv_step _ _ _ _ Hsize Hev Hstep).
      apply (reachable_wf minttl maxttl maxbytes). by exists evs.
Qed.

(** X9: when no call is cancelled, once every call has returned, [size] is
    the number of entries of the map, and [evictions] is the number of
    elements that were inserted and are no longer in the map (the counters
    being read in the arithmetic of [int64]). *)
Theorem X9_size_is_entries_without_cancellation (minttl maxttl maxbytes : Z)
    (evs : list event) (s : state) :
  run evs (init (newCache minttl maxttl maxbytes)) = Some s →
  Forall no_cancel evs →
  quiescent s →
  Size (Stats (cache s)) = wrap64 (Z.of_nat (size (c_items (cache s))))
  ∧ Evictions (Stats (cache s))
    = wrap64 (Z.of_nat (length (heap s)) - Z.of_nat (size (c_items (cache s)))).
Proof.
  intros Hrun Hnc Hq.
  destruct (run_no_cancel_inv _ _ _ _ _ Hrun Hnc)
    as [(H & M & _ & HM & _ & Hheap) (S & HS & Hsize)].
  rewrite (quiescent_size_ahead s Hq) in Hsize.
  destruct (quiescent_counted s Hq) as [_ Hu]. rewrite Hu in Hheap.
  assert (reachable (newCache minttl maxttl maxbytes) s) as Hreach by by exists evs.
  destruct (reachable_stats_inv _ _ _ _ Hreach) as (E & S0 & M0 & HE & HS0 & HM0 & Hbal).
  rewrite (quiescent_owed s Hq) in Hbal.
  simpl. split; [rewrite HS; f_equal; lia|].
  rewrite HE. replace E with (M0 - S0) by lia.
  rewrite <-wrap64_sub_both, <-HM0, <-HS0, HM, HS, wrap64_sub_both.
  f_equal. lia.
Qed.

Lemma X9_size_is_entries_without_cancellation_witness :
  let s := final (newCache 0 0 64) small_cache_schedule in
  Size (Stats (cache s)) = 0 ∧ Evictions (Stats (cache s)) = 2.
Proof.
  apply (X9_size_is_entries_without_cancellation 0 0 64 small_cache_schedule).
  - vm_compute. reflexivity.
  - repeat constructor.
  - vm_compute. repeat constructor; eexists; reflexivity.
Defined.

(** ** A call that hits *)

(** The heap after the return of a call with the item of element [e]: a call
    of [Resolve] without error has moved the index. *)
Lemma step_L192_result m now done e item c h sp :
  h !! e = Some item →
  ∃ item',
    thread_step m (L192 e) now done c h sp
    = Some (c, <[e := item']> h, sp, Returned (final_result m item now))
    ∧ same_content item item'.
Proof.
  intros He. unfold thread_step, final_result. rewrite He. simpl.
  destruct (item_err item) eqn:Herr.
  - exists item. rewrite list_insert_id by done. split; [done|apply same_content_refl].
  - destruct m; simpl.
    + eexists. split; [done|]. by repeat split.
    + exists item. rewrite list_insert_id by done.
      split; [done|apply same_content_refl].
Qed.

(** A call that finds its key in the map, with the item ready and not
    expired, run alone to its return. *)
Lemma hit_call m now s e item :
  c_items (cache s) !! method_key m = Some e →
  heap s !! e = Some item → item_ready item = true → now ≤ item_ttl item →
  ∃ item',
    same_content item item'
    ∧ run (hit_schedule m (length (threads s)) now) s
      = Some {| cache := add_hits (set_lru (cache s) (c_items (cache s))
                                     (list_MoveToFront e (c_queue (cache s)))) 1;
                heap := <[e := item']> (heap s);
                threads := threads s
                           ++ [mkThread m (Returned (final_result m item now))];
                spawned := spawned s; calls := calls s |}.
Proof.
  intros Hin He Hready Hnow.
  destruct (step_L192_result m now None e item
              (add_hits (set_lru (cache s) (c_items (cache s))
                                 (list_MoveToFront e (c_queue (cache s)))) 1)
              (heap s) (spawned s) He) as (item' & Hret & Hsame).
  exists item'. split; [done|].
  unfold hit_schedule. cbn [run].
  unfold step at 1. cbn [mbind option_bind].
  erewrite run_thread_run.
  - cbn [threads cache heap spawned calls]. by rewrite insert_snoc.
  - cbn [threads]. rewrite lookup_app_r by lia. by rewrite Nat.sub_diag.
  - cbn [thread_run cache heap spawned].
    rewrite (step_L113_hit _ _ _ e) by done. cbn [mbind option_bind].
    rewrite step_L127. cbn [mbind option_bind].
    rewrite (step_L132_fresh _ _ _ _ item) by done. cbn [mbind option_bind stats_pc].
    rewrite step_L164. cbn [mbind option_bind].
    rewrite Hret. done.
Qed.

(** X10: a call whose key is in the map, with the item ready and not
    expired, running alone, returns what the item holds after five steps,
    without calling the registry or starting a fetch: the map is unchanged,
    the element is moved to the front of the queue, [hits] is incremented
    and no other counter moves. *)
Theorem X10_fresh_hit (s : state) (m : method) (e : nat) (item : cacheItem) (now : Z) :
  wf s →
  c_items (cache s) !! method_key m = Some e →
  heap s !! e = Some item → item_ready item = true → now ≤ item_ttl item →
  ∃ s',
    run (hit_schedule m (length (threads s)) now) s = Some s'
    ∧ threads s' = threads s ++ [mkThread m (Returned (final_result m item now))]
    ∧ calls s' = calls s ∧ spawned s' = spawned s
    ∧ length (heap s') = length (heap s)
    ∧ c_items (cache s') = c_items (cache s)
    ∧ c_queue (cache s') = e :: list_Remove e (c_queue (cache s))
    ∧ Stats (cache s')
      = {| Bytes := c_bytes (cache s); Size := c_size (cache s);
           Hits := add64 (c_hits (cache s)) 1; Misses := c_misses (cache s);
           Evictions := c_evictions (cache s) |}.
Proof.
  intros Hwf Hin He Hready Hnow.
  destruct (hit_call m now s e item Hin He Hready Hnow) as (item' & _ & Hrun).
  eexists. split; [exact Hrun|]. cbn [threads calls spawned heap cache].
  do 3 (split; [done|]). split; [by rewrite length_insert|].
  split; [done|]. split; [|done].
  simpl. unfold list_MoveToFront. rewrite decide_True; [done|].
  by destruct (lru_map _ _ _ (wf_lru _ Hwf) _ _ Hin).
Qed.

Lemma X10_fresh_hit_witness :
  ∃ s',
    run (hit_schedule (Lookup "svc" []) 1 7) warm = Some s'
    ∧ threads s' = threads warm
        ++ [mkThread (Lookup "svc" [])
              (Returned (LookupRet ["c"; "a"; "b"]%string 998 None))]
    ∧ calls s' = calls warm
    ∧ Hits (Stats (cache s')) = 1.
Proof.
  destruct (X10_fresh_hit warm (Lookup "svc" []) 0 warm_item 7)
    as (s' & Hrun & Hts & Hcalls & _ & _ & _ & _ & Hstats).
  - apply (reachable_wf 0 0 0).
    exists (miss_schedule (Resolve "svc") 0 0 abc [2; 0; 1]%nat 5).
    vm_compute. reflexivity.
  - vm_compute. reflexivity.
  - vm_compute. reflexivity.
  - reflexivity.
  - simpl. lia.
  - exists s'. split; [exact Hrun|]. split; [exact Hts|]. split; [exact Hcalls|].
    rewrite Hstats. reflexivity.
Defined.

(** ** A call that hits an expired item *)

Lemma list_Remove_MoveToFront e q :
  list_Remove e (list_MoveToFront e q) = list_Remove e q.
Proof.
  unfold list_MoveToFront. case_decide; [|done].
  unfold list_Remove at 1. rewrite filter_cons, decide_False by (intros H'; by apply H').
  fold (list_Remove e (list_Remove e q)).
  apply list_Remove_notin. rewrite list_Remove_elem. intros [_ Hne]. by apply Hne.
Qed.

Lemma step_L113_miss m now done c h sp :
  c_items c !! method_key m = None →
  thread_step m L113 now done c h sp
  = Some (set_lru c (<[method_key m := length h]> (c_items c))
                    (list_PushFront (length h) (c_queue c)),
          h ++ [newCacheItem (method_key m) (method_tags m)], sp,
          L127 (length h) false).
Proof. intros Hin. unfold thread_step. by rewrite Hin. Qed.

(** X11: a call whose key is in the map with the item ready and expired,
    running alone, evicts the element ([size] and [bytes] go down,
    [evictions] goes up) and goes back to line 113, where it misses: after
    nine steps it waits for a new element, inserted under its key at the
    front of the queue, whose fetch goroutine is started. *)
Theorem X11_expired_hit_refetches (s : state) (m : method) (e : nat)
    (item : cacheItem) (now : Z) :
  c_items (cache s) !! method_key m = Some e →
  heap s !! e = Some item → item_ready item = true → item_ttl item < now →
  let tid := length (threads s) in
  let e' := length (heap s) in
  ∃ s',
    run (Call m :: repeat (Run tid now None) 9) s = Some s'
    ∧ threads s' = threads s ++ [mkThread m (L132 e' false)]
    ∧ heap s' = heap s ++ [newCacheItem (method_key m) (method_tags m)]
    ∧ spawned s' = e' :: spawned s
    ∧ calls s' = calls s
    ∧ c_items (cache s') = <[method_key m := e']> (c_items (cache s))
    ∧ c_queue (cache s') = e' :: list_Remove e (c_queue (cache s))
    ∧ Stats (cache s')
      = {| Bytes := add64 (c_bytes (cache s)) (- item_bytes item);
           Size := add64 (c_size (cache s)) (-1);
           Hits := c_hits (cache s); Misses := c_misses (cache s);
           Evictions := add64 (c_evictions (cache s)) 1 |}.
Proof.
  intros Hin He Hready Hexp tid e'. subst tid e'.
  eexists. split.
  - cbn [run]. unfold step at 1. cbn [mbind option_bind].
    eapply run_thread_run.
    + cbn [threads]. rewrite lookup_app_r by lia. by rewrite Nat.sub_diag.
    + cbn [thread_run cache heap spawned].
      rewrite (step_L113_hit _ _ _ e) by done. cbn [mbind option_bind].
      rewrite step_L127. cbn [mbind option_bind].
      rewrite (step_L132_expired _ _ _ _ item) by done. cbn [mbind option_bind].
      rewrite step_L140_evict by done. cbn [mbind option_bind].
      rewrite (step_L150 _ _ _ _ _ item) by done. cbn [mbind option_bind].
      rewrite step_L151. cbn [mbind option_bind].
      rewrite step_L152. cbn [mbind option_bind].
      rewrite step_L113_miss by (simpl; apply lookup_delete_eq).
      cbn [mbind option_bind]. rewrite step_L127. cbn [mbind option_bind].
      reflexivity.
  - cbn [threads heap spawned calls cache]. split; [by rewrite insert_snoc|].
    do 3 (split; [done|]). simpl.
    split; [by rewrite insert_delete_eq|].
    split; [|done]. unfold list_PushFront. by rewrite list_Remove_MoveToFront.
Qed.

Lemma X11_expired_hit_refetches_witness :
  ∃ s',
    run (Call (Resolve "svc") :: repeat (Run 1 2000 None) 9) warm = Some s'
    ∧ spawned s' = [1%nat]
    ∧ c_queue (cache s') = [1%nat]
    ∧ Evictions (Stats (cache s')) = 1.
Proof.
  destruct (X11_expired_hit_refetches warm (Resolve "svc") 0 warm_item 2000)
    as (s' & Hrun & _ & _ & Hsp & _ & _ & Hq & Hstats).
  - vm_compute. reflexivity.
  - vm_compute. reflexivity.
  - reflexivity.
  - simpl. lia.
  - exists s'. split; [exact Hrun|]. split; [exact Hsp|]. split; [exact Hq|].
    rewrite Hstats. reflexivity.
Defined.

(** * Properties of the error classifier, of [Prefer] and of the dialer *)

(** ** Wrapped errors *)

(** X12: wrapping an error with [wrapError], any number of times, keeps nil
    nil and an error an error, and changes neither what [isUnreachable] nor
    what [isCanceled] answers. *)
Theorem X12_wrapError_keeps_class (n : nat) (err : option error) :
  (Nat.iter n wrapError err = None ↔ err = None)
  ∧ isUnreachable (Nat.iter n wrapError err) = isUnreachable err
  ∧ isCanceled (Nat.iter n wrapError err) = isCanceled err.
Proof.
  induction n as [|n (IHnil & IHu & IHc)]; [done|].
  simpl. destruct (Nat.iter n wrapError err) as [e|] eqn:Hiter; simpl.
  - split; [|done]. split; [done|]. intros Herr. apply IHnil in Herr. done.
  - split; [|done]. split; [intros _; by apply IHnil | done].
Qed.

(** ** The preferred tags *)

Lemma prefer_loop_first (base : Registry) (ctx : Context) name tags :
  ∀ ptags i j p,
    ptags !! j = Some p →
    (∀ j', (j' ≤ j)%nat → ctx (i + j')%nat = None) →
    (∀ j' p', (j' < j)%nat → ptags !! j' = Some p' →
       res_addrs (base (i + j')%nat name (tags ++ [p'])) = []) →
    res_addrs (base (i + j)%nat name (tags ++ [p])) ≠ [] →
    prefer_loop base ctx i name tags ptags
    = (base (i + j)%nat name (tags ++ [p]),
       (fun p => tags ++ [p]) <$> take (S j) ptags).
Proof.
  induction ptags as [|p0 ptags IH]; intros i j p Hj Hctx Hempty Hfound; [done|].
  cbn [prefer_loop]. pose proof (Hctx 0%nat ltac:(lia)) as Hctx0.
  rewrite Nat.add_0_r in Hctx0. rewrite Hctx0.
  destruct j as [|j]; simplify_eq/=.
  - rewrite Nat.add_0_r in *.
    destruct (res_addrs (base i name (tags ++ [p]))); [done|].
    simpl. by rewrite ?take_0.
  - pose proof (Hempty 0%nat p0 ltac:(lia) eq_refl) as H0.
    rewrite Nat.add_0_r in H0. rewrite H0. simpl.
    rewrite (IH (S i) j p); [|done|..].
    + by replace (S i + j)%nat with (i + S j)%nat by lia.
    + intros j' Hj'. replace (S i + j')%nat with (i + S j')%nat by lia.
      apply Hctx. lia.
    + intros j' p' Hj' Hp'. replace (S i + j')%nat with (i + S j')%nat by lia.
      apply Hempty; [lia|done].
    + by replace (S i + j)%nat with (i + S j)%nat by lia.
Qed.

Lemma prefer_loop_fallback (base : Registry) (ctx : Context) name tags :
  ∀ ptags i,
    (∀ j, (j < length ptags)%nat → ctx (i + j)%nat = None) →
    (∀ j p, ptags !! j = Some p →
       res_addrs (base (i + j)%nat name (tags ++ [p])) = []) →
    prefer_loop base ctx i name tags ptags
    = (base (i + length ptags)%nat name tags,
       ((fun p => tags ++ [p]) <$> ptags) ++ [tags]).
Proof.
  induction ptags as [|p0 ptags IH]; intros i Hctx Hempty.
  - simpl. by rewrite Nat.add_0_r.
  - cbn [prefer_loop]. pose proof (Hctx 0%nat ltac:(simpl; lia)) as Hctx0.
    rewrite Nat.add_0_r in Hctx0. rewrite Hctx0.
    pose proof (Hempty 0%nat p0 eq_refl) as H0.
    rewrite Nat.add_0_r in H0. rewrite H0. simpl.
    rewrite (IH (S i)).
    + by replace (S i + length ptags)%nat with (i + S (length ptags))%nat by lia.
    + intros j Hj. replace (S i + j)%nat with (i + S j)%nat by lia.
      apply Hctx. simpl. lia.
    + intros j p Hp. replace (S i + j)%nat with (i + S j)%nat by lia.
      by apply Hempty.
Qed.

Lemma prefer_loop_cancel (base : Registry) (ctx : Context) name tags err :
  ∀ ptags i j,
    (j < length ptags)%nat →
    ctx (i + j)%nat = Some err →
    (∀ j', (j' < j)%nat → ctx (i + j')%nat = None) →
    (∀ j' p', (j' < j)%nat → ptags !! j' = Some p' →
       res_addrs (base (i + j')%nat name (tags ++ [p'])) = []) →
    prefer_loop base ctx i name tags ptags
    = (mkRes [] 0 (Some err), (fun p => tags ++ [p]) <$> take j ptags).
Proof.
  induction ptags as [|p0 ptags IH]; intros i j Hj Hdone Hctx Hempty;
    [simpl in Hj; lia|].
  cbn [prefer_loop]. destruct j as [|j].
  - rewrite Nat.add_0_r in Hdone. by rewrite Hdone.
  - pose proof (Hctx 0%nat ltac:(lia)) as Hctx0.
    rewrite Nat.add_0_r in Hctx0. rewrite Hctx0.
    pose proof (Hempty 0%nat p0 ltac:(lia) eq_refl) as H0.
    rewrite Nat.add_0_r in H0. rewrite H0. simpl.
    rewrite (IH (S i) j); [done|simpl in Hj; lia|..].
    + by replace (S i + j)%nat with (i + S j)%nat by lia.
    + intros j' Hj'. replace (S i + j')%nat with (i + S j')%nat by lia.
      apply Hctx. lia.
    + intros j' p' Hj' Hp'. replace (S i + j')%nat with (i + S j')%nat by lia.
      apply Hempty; [lia|done].
Qed.

(** X13: when the context is not done and the lookups with the preferred
    tags before the [j]-th one return no address, [Prefer] returns what the
    base registry returns for the tags of the caller followed by the [j]-th
    preferred tag, if that holds an address; the base registry was called
    [j + 1] times, once for each preferred tag up to that one, in order. *)
Theorem X13_prefer_first_match (base : Registry) (ctx : Context)
    (ptags : list string) (name : string) (tags : list string)
    (j : nat) (p : string) :
  ptags !! j = Some p →
  (∀ j', (j' ≤ j)%nat → ctx j' = None) →
  (∀ j' p', (j' < j)%nat → ptags !! j' = Some p' →
     res_addrs (base j' name (tags ++ [p'])) = []) →
  res_addrs (base j name (tags ++ [p])) ≠ [] →
  prefer_Lookup base ptags ctx name tags
  = (base j name (tags ++ [p]), (fun p => tags ++ [p]) <$> take (S j) ptags).
Proof.
  intros Hj Hctx Hempty Hfound. unfold prefer_Lookup, copyStrings.
  by rewrite (prefer_loop_first base ctx name tags ptags 0 j p).
Qed.

Lemma X13_prefer_first_match_witness :
  prefer_Lookup tagB_registry ["A"; "B"; "C"]%string background
                "my-service" ["my-tag"]%string
  = (mkRes ["localhost:4242"]%string 1000000000 None,
     [["my-tag"; "A"]; ["my-tag"; "B"]]%string).
Proof.
  apply (X13_prefer_first_match tagB_registry background ["A"; "B"; "C"]%string
           "my-service" ["my-tag"]%string 1 "B").
  - reflexivity.
  - reflexivity.
  - intros [|j'] p' Hlt Hp; [|lia]. injection Hp as <-. reflexivity.
  - discriminate.
Defined.

(** X14: when the context is not done and no lookup with a preferred tag
    returns an address, [Prefer] returns what the base registry returns for
    the tags of the caller alone, after one call for each preferred tag, in
    order; the errors that these calls returned with no address are
    dropped. *)
Theorem X14_prefer_fallback (base : Registry) (ctx : Context)
    (ptags : list string) (name : string) (tags : list string) :
  (∀ j, (j < length ptags)%nat → ctx j = None) →
  (∀ j p, ptags !! j = Some p → res_addrs (base j name (tags ++ [p])) = []) →
  prefer_Lookup base ptags ctx name tags
  = (base (length ptags) name tags,
     ((fun p => tags ++ [p]) <$> ptags) ++ [tags]).
Proof.
  intros Hctx Hempty. unfold prefer_Lookup, copyStrings.
  by rewrite (prefer_loop_fallback base ctx name tags ptags 0).
Qed.

Lemma X14_prefer_fallback_witness :
  prefer_Lookup failing_registry
                ["A"; "B"; "C"]%string background "my-service" ["my-tag"]%string
  = (mkRes ["localhost:80"]%string 5 None,
     [["my-tag"; "A"]; ["my-tag"; "B"]; ["my-tag"; "C"]; ["my-tag"]]%string).
Proof.
  apply (X14_prefer_fallback
           failing_registry background ["A"; "B"; "C"]%string "my-service" ["my-tag"]%string).
  - reflexivity.
  - intros [|[|[|j]]] p Hp; simplify_eq/=; reflexivity.
Defined.

(** X15: when the context is done at the [j]-th turn of the loop, after
    lookups that returned no address, [Prefer] returns the error of the
    context with no address and a zero time-to-live, and the base registry
    was called for the first [j] preferred tags only; it is not called
    without preferred tags. *)
Theorem X15_prefer_context_done (base : Registry) (ctx : Context)
    (ptags : list string) (name : string) (tags : list string)
    (j : nat) (err : error) :
  (j < length ptags)%nat →
  ctx j = Some err →
  (∀ j', (j' < j)%nat → ctx j' = None) →
  (∀ j' p', (j' < j)%nat → ptags !! j' = Some p' →
     res_addrs (base j' name (tags ++ [p'])) = []) →
  prefer_Lookup base ptags ctx name tags
  = (mkRes [] 0 (Some err), (fun p => tags ++ [p]) <$> take j ptags).
Proof.
  intros Hj Hdone Hctx Hempty. unfold prefer_Lookup, copyStrings.
  by rewrite (prefer_loop_cancel base ctx name tags err ptags 0 j).
Qed.

Lemma X15_prefer_context_done_witness :
  prefer_Lookup tagB_registry ["A"; "B"; "C"]%string
                (fun i => if (1 <=? i)%nat then Some Canceled else None)
                "my-service" ["my-tag"]%string
  = (mkRes [] 0 (Some Canceled), [["my-tag"; "A"]]%string).
Proof.
  apply (X15_prefer_context_done tagB_registry
           (fun i => if (1 <=? i)%nat then Some Canceled else None)
           ["A"; "B"; "C"]%string "my-service" ["my-tag"]%string 1 Canceled).
  - simpl. lia.
  - reflexivity.
  - intros [|j'] Hlt; [reflexivity|lia].
  - intros [|j'] p' Hlt Hp; [|lia]. injection Hp as <-. reflexivity.
Defined.

(** ** The dialer *)

Lemma wrapError_nil (err : option error) : wrapError err = None ↔ err = None.
Proof. by destruct err. Qed.

Lemma wrapError_isUnreachable (err : option error) :
  isUnreachable (wrapError err) = isUnreachable err.
Proof. by destruct err. Qed.

Lemma wrapError_isCanceled (err : option error) :
  isCanceled (wrapError err) = isCanceled err.
Proof. by destruct err. Qed.

Lemma iter_wrapError_isUnreachable (n : nat) (err : option error) :
  isUnreachable (Nat.iter n wrapError err) = isUnreachable err.
Proof.
  induction n as [|n IH]; [done|]. simpl. by rewrite wrapError_isUnreachable.
Qed.

(** X16: whatever the standard library, the resolvers and the address are,
    [DialContext] either dials once, the address it was given or the target
    that the resolver in use ([d.Resolver], or [DefaultResolver] when it is
    nil) returned with no error for the name of the address, and returns the
    connection of that dial with its error wrapped, nil exactly when the dial
    had no error and of the same unreachable and canceled classes; or it
    dials nothing and returns no connection and the error of the resolver
    unchanged, and that error is not an unreachable one. *)
Theorem X16_DialContext_outcome (Conn : Type)
    (net_SplitHostPort : string → option (string * string))
    (net_ParseIP : string → bool)
    (net_Dial : string → string → option Conn * option error)
    (d_Resolver : option (string → string * option error))
    (DefaultResolver : string → string * option error)
    (network address : string) :
  let out := DialContext Conn net_SplitHostPort net_ParseIP net_Dial
               d_Resolver DefaultResolver network address in
  let resolver := default DefaultResolver d_Resolver in
  match dialed Conn out with
  | Some a =>
      (a = address ∨ resolver (nameOnly net_SplitHostPort address) = (a, None))
      ∧ dial_conn Conn out = (net_Dial network a).1
      ∧ (dial_err Conn out = None ↔ (net_Dial network a).2 = None)
      ∧ isUnreachable (dial_err Conn out) = isUnreachable (net_Dial network a).2
      ∧ isCanceled (dial_err Conn out) = isCanceled (net_Dial network a).2
  | None =>
      ∃ target err,
        resolver (nameOnly net_SplitHostPort address) = (target, Some err)
        ∧ isUnreachable (Some err) = false
        ∧ dial_conn Conn out = None
        ∧ dial_err Conn out = Some err
  end.
Proof.
  intros out resolver. subst out. unfold DialContext. fold resolver.
  assert (∀ a, (a = address
                ∨ resolver (nameOnly net_SplitHostPort address) = (a, None)) →
     match dialed Conn (dial_address Conn net_Dial network a) with
     | Some a' =>
         (a' = address
          ∨ resolver (nameOnly net_SplitHostPort address) = (a', None))
         ∧ dial_conn Conn (dial_address Conn net_Dial network a)
           = (net_Dial network a').1
         ∧ (dial_err Conn (dial_address Conn net_Dial network a) = None
            ↔ (net_Dial network a').2 = None)
         ∧ isUnreachable (dial_err Conn (dial_address Conn net_Dial network a))
           = isUnreachable (net_Dial network a').2
         ∧ isCanceled (dial_err Conn (dial_address Conn net_Dial network a))
           = isCanceled (net_Dial network a').2
     | None => False
     end) as Hdial.
  { intros a Ha. unfold dial_address.
    destruct (net_Dial network a) as [conn err] eqn:Hd. simpl. rewrite Hd. simpl.
    split; [done|]. split; [done|]. split; [apply wrapError_nil|].
    split; [apply wrapError_isUnreachable | apply wrapError_isCanceled]. }
  set (resolve := match net_SplitHostPort address with
                  | Some (host, _) => negb (net_ParseIP host)
                  | None => true
                  end).
  destruct resolve.
  - destruct (resolver (nameOnly net_SplitHostPort address))
      as [target [err|]] eqn:Hres.
    + destruct (isUnreachable (Some err)) eqn:Hun.
      * pose proof (Hdial address (or_introl eq_refl)) as H.
        destruct (dialed Conn (dial_address Conn net_Dial network address));
          [done|].
        done.
      * simpl. exists target, err. split; [done|]. split; [exact Hun|done].
    + pose proof (Hdial target (or_intror eq_refl)) as H.
      destruct (dialed Conn (dial_address Conn net_Dial network target));
        [done|done].
  - pose proof (Hdial address (or_introl eq_refl)) as H.
    destruct (dialed Conn (dial_address Conn net_Dial network address));
      [done|done].
Qed.

(** X17: when the host of the address is not an IP literal and the resolver
    in use fails with an unreachable error, wrapped by [wrapError] any number
    of times (the [cacheError] of a name with no address, "no such host",
    a refused connection), [DialContext] ignores the resolver and dials the
    address it was given. *)
Theorem X17_DialContext_falls_back (Conn : Type)
    (net_SplitHostPort : string → option (string * string))
    (net_ParseIP : string → bool)
    (net_Dial : string → string → option Conn * option error)
    (d_Resolver : option (string → string * option error))
    (DefaultResolver : string → string * option error)
    (network address target : string) (n : nat) (cause : error) :
  (∀ host port, net_SplitHostPort address = Some (host, port) →
                net_ParseIP host = false) →
  default DefaultResolver d_Resolver (nameOnly net_SplitHostPort address)
  = (target, Nat.iter n wrapError (Some cause)) →
  isUnreachable (Some cause) = true →
  DialContext Conn net_SplitHostPort net_ParseIP net_Dial
    d_Resolver DefaultResolver network address
  = {| dialed := Some address;
       dial_conn := (net_Dial network address).1;
       dial_err := wrapError (net_Dial network address).2 |}.
Proof.
  intros Hname Hres Hun. unfold DialContext.
  assert (match net_SplitHostPort address with
          | Some (host, _) => negb (net_ParseIP host)
          | None => true
          end = true) as ->.
  { destruct (net_SplitHostPort address) as [[host port]|]; [|done].
    by rewrite (Hname host port). }
  rewrite Hres.
  pose proof (iter_wrapError_isUnreachable n (Some cause)) as Hiter.
  rewrite Hun in Hiter.
  destruct (Nat.iter n wrapError (Some cause)) as [err|] eqn:Herr; [|done].
  rewrite Hiter. unfold dial_address. by destruct (net_Dial network address).
Qed.

Lemma X17_DialContext_falls_back_witness :
  DialContext string (fun _ => None) (fun _ => false)
    (fun _ address => (Some address, None))
    (Some (fun name => (""%string, Some (wrappedError (Some (cacheError name))))))
    (fun name => (name, None)) "tcp" "svc"
  = {| dialed := Some "svc"%string; dial_conn := Some "svc"%string;
       dial_err := None |}.
Proof.
  apply (X17_DialContext_falls_back string (fun _ => None) (fun _ => false)
           (fun _ address => (Some address, None))
           (Some (fun name => (""%string, Some (wrappedError (Some (cacheError name))))))
           (fun name => (name, None)) "tcp" "svc" "" 1 (cacheError "svc")).
  - intros host port Hsplit. discriminate Hsplit.
  - reflexivity.
  - reflexivity.
Defined.

(** X18: when the host of the address is an IP literal, [DialContext] dials
    the address it was given, whatever the resolvers are: none is
    consulted. *)
Theorem X18_DialContext_ip_literal (Conn : Type)
    (net_SplitHostPort : string → option (string * string))
    (net_ParseIP : string → bool)
    (net_Dial : string → string → option Conn * option error)
    (d_Resolver : option (string → string * option error))
    (DefaultResolver : string → string * option error)
    (network address host port : string) :
  net_SplitHostPort address = Some (host, port) →
  net_ParseIP host = true →
  DialContext Conn net_SplitHostPort net_ParseIP net_Dial
    d_Resolver DefaultResolver network address
  = {| dialed := Some address;
       dial_conn := (net_Dial network address).1;
       dial_err := wrapError (net_Dial network address).2 |}.
Proof.
  intros Hsplit Hip. unfold DialContext. rewrite Hsplit, Hip. simpl.
  unfold dial_address. by destruct (net_Dial network address).
Qed.

Lemma X18_DialContext_ip_literal_witness :
  DialContext string (fun _ => Some ("127.0.0.1", "80")%string) (fun _ => true)
    (fun _ address => (None, Some (Errno ECONNREFUSED)))
    (Some (fun name => ("10.0.0.1:80"%string, None)))
    (fun name => (name, None)) "tcp" "127.0.0.1:80"
  = {| dialed := Some "127.0.0.1:80"%string; dial_conn := None;
       dial_err := Some (wrappedError (Some (Errno ECONNREFUSED))) |}.
Proof.
  apply (X18_DialContext_ip_literal string
           (fun _ => Some ("127.0.0.1", "80")%string) (fun _ => true)
           (fun _ address => (None, Some (Errno ECONNREFUSED)))
           (Some (fun name => ("10.0.0.1:80"%string, None)))
           (fun name => (name, None)) "tcp" "127.0.0.1:80" "127.0.0.1" "80").
  - reflexivity.
  - reflexivity.
Defined.

(** ** A call that gives up while its item is fetched *)

Lemma run_step ev evs s s1 :
  step ev s = Some s1 → run (ev :: evs) s = run evs s1.
Proof. intros Hstep. simpl. by rewrite Hstep. Qed.

Lemma cancelled_miss_run (s : state) (m : method) (err : error)
    (res : lookup_result) (perm : list nat) (now : Z) :
  c_items (cache s) !! method_key m = None →
  is_perm (length (res_addrs res)) perm = true →
  let tid := length (threads s) in
  let e := length (heap s) in
  run (cancelled_schedule m tid e err res perm now) s
  = Some {| cache := set_lru (cache s) (<[method_key m := e]> (c_items (cache s)))
                       (list_PushFront e (c_queue (cache s)));
            heap := heap s
                    ++ [cacheItem_lookup (newCacheItem (method_key m) (method_tags m))
                          res (minTTL (cache s)) (maxTTL (cache s)) perm now];
            threads := threads s ++ [mkThread m (Returned (error_result m err))];
            spawned := list_Remove e (e :: spawned s);
            calls := calls s ++ [mkCall e (method_name m) [] res] |}.
Proof.
  intros Hout Hperm tid e. subst tid e. unfold cancelled_schedule.
  erewrite run_step by reflexivity.
  erewrite run_step; cycle 1.
  { eapply step_Run_eq.
    - cbn [threads]. rewrite lookup_app_r by lia. by rewrite Nat.sub_diag.
    - cbn [t_method t_pc cache heap spawned]. by apply step_L113_miss. }
  cbn [threads calls]. rewrite insert_snoc.
  erewrite run_step; cycle 1.
  { eapply step_Run_eq.
    - cbn [threads]. rewrite lookup_app_r by lia. by rewrite Nat.sub_diag.
    - cbn [t_method t_pc cache heap spawned]. apply step_L127. }
  cbn [threads calls]. rewrite insert_snoc.
  erewrite run_step; cycle 1.
  { eapply step_Run_eq.
    - cbn [threads]. rewrite lookup_app_r by lia. by rewrite Nat.sub_diag.
    - cbn [t_method t_pc cache heap spawned]. reflexivity. }
  cbn [threads calls]. rewrite insert_snoc.
  cbn [run]. unfold step. cbn [spawned heap cache calls threads].
  rewrite decide_True by apply list_elem_of_here.
  rewrite lookup_app_r by lia. rewrite Nat.sub_diag.
  cbn [lookup list_lookup mbind option_bind].
  rewrite Hperm. rewrite insert_app_r_alt by lia. rewrite Nat.sub_diag.
  reflexivity.
Qed.

(** X7: a call that misses and whose context is done while the item is
    fetched returns the error of the context, and the fetch still completes.
    The next call for the same key, if the item has not expired, hits: it
    returns what the registry answered to that one fetch. The item is in the
    map, but no counter other than [hits] has moved: it is counted neither
    in [misses], nor in [size], nor in [bytes]. *)
Theorem X7_cancelled_miss_is_not_counted (s : state) (m : method) (err : error)
    (res : lookup_result) (perm : list nat) (now now' : Z) :
  c_items (cache s) !! method_key m = None →
  is_perm (length (res_addrs res)) perm = true →
  now' ≤ now + clampTTL (res_ttl res) (minTTL (cache s)) (maxTTL (cache s)) →
  let tid := length (threads s) in
  let e := length (heap s) in
  let item := cacheItem_lookup (newCacheItem (method_key m) (method_tags m))
                res (minTTL (cache s)) (maxTTL (cache s)) perm now in
  ∃ s',
    run (cancelled_schedule m tid e err res perm now
         ++ hit_schedule m (S tid) now') s = Some s'
    ∧ threads s' = threads s
        ++ [mkThread m (Returned (error_result m err));
            mkThread m (Returned (final_result m item now'))]
    ∧ calls s' = calls s ++ [mkCall e (method_name m) [] res]
    ∧ c_items (cache s') = <[method_key m := e]> (c_items (cache s))
    ∧ Stats (cache s')
      = {| Bytes := c_bytes (cache s); Size := c_size (cache s);
           Hits := add64 (c_hits (cache s)) 1; Misses := c_misses (cache s);
           Evictions := c_evictions (cache s) |}.
Proof.
  intros Hout Hperm Hnow tid e item. subst tid e.
  rewrite run_app, cancelled_miss_run by done. cbn [mbind option_bind].
  match goal with |- ∃ s', run _ ?st = _ ∧ _ => set (s1 := st) end.
  destruct (hit_call m now' s1 (length (heap s)) item) as (item' & _ & Hrun).
  - subst s1. cbn [cache c_items set_lru]. apply lookup_insert_eq.
  - subst s1. cbn [heap]. rewrite lookup_app_r by lia. by rewrite Nat.sub_diag.
  - done.
  - done.
  - replace (S (length (threads s))) with (length (threads s1))
      by (subst s1; cbn [threads]; rewrite length_app; simpl; lia).
    rewrite Hrun. eexists. split; [done|]. subst s1. cbn [threads calls cache].
    split; [by rewrite <-app_assoc|]. done.
Qed.

Lemma X7_cancelled_miss_is_not_counted_witness :
  ∃ s',
    run (cancelled_schedule (Resolve "svc") 0 0 Canceled abc [2; 0; 1]%nat 5
         ++ hit_schedule (Resolve "svc") 1 7) (init (newCache 0 0 0)) = Some s'
    ∧ threads s' = [mkThread (Resolve "svc") (Returned (ResolveRet "" (Some Canceled)));
                    mkThread (Resolve "svc") (Returned (ResolveRet "a" None))]
    ∧ size (c_items (cache s')) = 1%nat
    ∧ Stats (cache s') = {| Bytes := 0; Size := 0; Hits := 1; Misses := 0;
                            Evictions := 0 |}.
Proof.
  destruct (X7_cancelled_miss_is_not_counted (init (newCache 0 0 0))
              (Resolve "svc") Canceled abc [2; 0; 1]%nat 5 7)
    as (s' & Hrun & Hts & _ & Hitems & Hstats).
  - reflexivity.
  - vm_compute. reflexivity.
  - vm_compute. discriminate.
  - exists s'. split; [exact Hrun|]. split; [rewrite Hts; reflexivity|].
    split; [rewrite Hitems; reflexivity | rewrite Hstats; reflexivity].
Defined.

(** ** The keys of tags without commas *)

Lemma sortedStrings_Permutation (s : list string) : sortedStrings s ≡ₚ s.
Proof.
  unfold sortedStrings, copyStrings. case_match; [|done].
  unfold sort_Strings. apply merge_sort_Permutation.
Qed.

Lemma append_String (c : ascii) (x r : string) :
  (String c x ++ r)%string = String c (x ++ r)%string.
Proof. reflexivity. Qed.

Lemma append_empty (r : string) : (EmptyString ++ r)%string = r.
Proof. reflexivity. Qed.

Lemma strings_Join_cons (x : string) (l : list string) :
  strings_Join (x :: l) "," = (x ++ join_rest l)%string.
Proof.
  unfold strings_Join. destruct l as [|y l]; simpl; [|done].
  induction x as [|c x IH]; [done|]. rewrite append_String. by f_equal.
Qed.

Lemma append_comma_inj (x x' r r' : string) :
  has_comma x = false → has_comma x' = false →
  (r = ""%string ∨ ∃ r0, r = String ","%char r0) →
  (r' = ""%string ∨ ∃ r0, r' = String ","%char r0) →
  (x ++ r)%string = (x' ++ r')%string → x = x' ∧ r = r'.
Proof.
  revert x'. induction x as [|c x IH]; intros [|c' x'] Hx Hx' Hr Hr' Heq;
    rewrite ?append_String, ?append_empty in Heq; simpl in Hx, Hx'.
  - done.
  - destruct Hr as [->|[r0 ->]]; [done|]. injection Heq as <- _.
    by rewrite Ascii.eqb_refl in Hx'.
  - destruct Hr' as [->|[r0 ->]]; [done|]. injection Heq as -> _.
    by rewrite Ascii.eqb_refl in Hx.
  - injection Heq as -> Heq.
    apply orb_false_iff in Hx as [_ Hx]. apply orb_false_iff in Hx' as [_ Hx'].
    destruct (IH x' Hx Hx' Hr Hr' Heq) as [-> ->]. done.
Qed.

Lemma join_rest_cases (l : list string) :
  join_rest l = ""%string ∨ ∃ r0, join_rest l = String ","%char r0.
Proof. destruct l; [by left | right; by eexists]. Qed.

Lemma strings_Join_inj (l1 l2 : list string) :
  Forall plain_tag l1 → Forall plain_tag l2 →
  strings_Join l1 "," = strings_Join l2 "," → l1 = l2.
Proof.
  revert l2. induction l1 as [|x l1 IH]; intros [|x' l2] H1 H2 Heq.
  - done.
  - rewrite strings_Join_cons in Heq. apply Forall_cons in H2 as [[Hne _] _].
    destruct x'; [done|]. rewrite append_String in Heq. discriminate.
  - rewrite strings_Join_cons in Heq. apply Forall_cons in H1 as [[Hne _] _].
    destruct x; [done|]. rewrite append_String in Heq. discriminate.
  - rewrite !strings_Join_cons in Heq.
    apply Forall_cons in H1 as [[_ Hx] H1]. apply Forall_cons in H2 as [[_ Hx'] H2].
    destruct (append_comma_inj x x' _ _ Hx Hx' (join_rest_cases l1)
                (join_rest_cases l2) Heq) as [-> Hrest].
    f_equal. destruct l1 as [|y l1], l2 as [|y' l2]; simpl in Hrest; try done.
    injection Hrest as Hrest. by apply IH.
Qed.

(** X19: two calls of [Lookup] whose tags are not empty and hold no comma
    have the same cache key only when they have the same name and the same
    tags up to their order: such calls never share an item by accident. *)
Theorem X19_plain_tags_separate_keys (name1 name2 : string)
    (tags1 tags2 : list string) :
  Forall plain_tag tags1 → Forall plain_tag tags2 →
  method_key (Lookup name1 tags1) = method_key (Lookup name2 tags2) →
  name1 = name2 ∧ tags1 ≡ₚ tags2.
Proof.
  intros H1 H2 Hkey. unfold method_key, makeCacheKey in Hkey. simpl in Hkey.
  injection Hkey as Hname Htags. split; [done|].
  rewrite <-(sortedStrings_Permutation tags1), <-(sortedStrings_Permutation tags2).
  assert (sortedStrings tags1 = sortedStrings tags2) as ->; [|done].
  apply strings_Join_inj; [| |done].
  - by rewrite sortedStrings_Permutation.
  - by rewrite sortedStrings_Permutation.
Qed.

Lemma X19_plain_tags_separate_keys_witness :
  "svc"%string = "svc"%string ∧ ["b"; "a"]%string ≡ₚ ["a"; "b"]%string.
Proof.
  apply (X19_plain_tags_separate_keys "svc" "svc" ["b"; "a"]%string ["a"; "b"]%string).
  - repeat constructor; discriminate.
  - repeat constructor; discriminate.
  - reflexivity.
Defined.
